(** * calc-app: the window registry of [AppsContext.tsx] and the taskbar
      gesture of the [App] component

    The registry is a React component holding two [useState] cells,
    [openedApps] (an array of window objects) and [focusedWindowId].  Its
    actions are closures over the values of the last render; they do not
    change the cells directly but dispatch updates that React applies when it
    renders next.  Window objects are mutated in place by the queued updaters
    ([app.zIndex = ...]), so the arrays of successive renders share their
    elements.  The embedding keeps all of this explicit:

    - window objects live in a store and arrays hold references to them;
    - an action is a computation in a state monad over the component's
      update queues;
    - an event runs one handler against the last rendered values and then
      renders.

    Three things come from outside of the two source files.  Numbers are
    modelled by [Z]: every [zIndex] the registry produces is a small positive
    integer, far inside the range in which JavaScript numbers are exact.
    The string [uuidv4()] returns is an argument of [openApp]; runs are
    considered in which it is non-empty and not the identifier of an open
    window.  When React runs a queued updater is a parameter ([policy]); all
    properties below are proved for both of its values. *)

From Stdlib Require Import ZArith Lia.
From stdpp Require Import base option list strings.

Local Open Scope Z_scope.

(** ** Data model ([types/windowApp], as used by the context) *)

Inductive WindowAppTypes := calculator | tasks | other_app.

Record Size := { width : string; height : string }.

(** [AppProps]: the per-type presentation data. *)
Record AppProps := {
  ap_iconSrc : string;
  ap_displayName : string;
  ap_minSize : Size
}.

(** [WindowApp = WindowProps & AppProps]. *)
Record WindowApp := {
  id : string;
  type : WindowAppTypes;
  isFullscreen : bool;
  isMinimalize : bool;
  zIndex : Z;
  iconSrc : string;
  displayName : string;
  minSize : Size
}.

(** Field assignments [app.f = v]. *)
Definition set_zIndex (z : Z) (a : WindowApp) : WindowApp :=
  {| id := id a; type := type a; isFullscreen := isFullscreen a;
     isMinimalize := isMinimalize a; zIndex := z; iconSrc := iconSrc a;
     displayName := displayName a; minSize := minSize a |}.

Definition set_isMinimalize (b : bool) (a : WindowApp) : WindowApp :=
  {| id := id a; type := type a; isFullscreen := isFullscreen a;
     isMinimalize := b; zIndex := zIndex a; iconSrc := iconSrc a;
     displayName := displayName a; minSize := minSize a |}.

Definition set_isFullscreen (b : bool) (a : WindowApp) : WindowApp :=
  {| id := id a; type := type a; isFullscreen := b;
     isMinimalize := isMinimalize a; zIndex := zIndex a; iconSrc := iconSrc a;
     displayName := displayName a; minSize := minSize a |}.

(** ** Object store

    A reference is an index into a grow-only list of objects.  The source
    cannot build a dangling reference; reading one yields [None] here and a
    write through one changes nothing. *)

Abbreviation loc := nat (only parsing).

(** ** A state monad, with stdpp's bind notation *)

Definition ST (S A : Type) : Type := S → A * S.

#[export] Instance ST_ret {S} : MRet (ST S) := λ A (a : A) s, (a, s).
#[export] Instance ST_bind {S} : MBind (ST S) :=
  λ A B (k : A → ST S B) (m : ST S A) s, let '(a, s') := m s in k a s'.

Definition gets {S A} (f : S → A) : ST S A := λ s, (f s, s).
Definition modify {S} (f : S → S) : ST S unit := λ s, (tt, f s).

(** What a queued updater can touch while it runs: the objects, and the
    queue of [focusedWindowId] (it may call [setFocusedWindowId]). *)
Record Mem := {
  objs : list WindowApp;
  focusQueue : list (option string)
}.

Definition Upd := ST Mem.

Definition load (l : loc) : Upd (option WindowApp) := gets (λ m, objs m !! l).

Definition store (l : loc) (a : WindowApp) : Upd unit :=
  modify (λ m, {| objs := <[l := a]> (objs m); focusQueue := focusQueue m |}).

Definition alloc (a : WindowApp) : Upd loc :=
  λ m, (length (objs m),
        {| objs := objs m ++ [a]; focusQueue := focusQueue m |}).

(** The dispatch function of the [focusedWindowId] cell: the value joins the
    cell's queue. *)
Definition setFocusedWindowId (v : option string) : Upd unit :=
  modify (λ m, {| objs := objs m; focusQueue := focusQueue m ++ [v] |}).

(** [Array.prototype.map] and [filter] with an effectful callback: elements
    are visited from left to right and a new array is returned. *)
Fixpoint array_map (f : loc → Upd loc) (l : list loc) : Upd (list loc) :=
  match l with
  | [] => mret []
  | x :: l' => y ← f x; ys ← array_map f l'; mret (y :: ys)
  end.

Fixpoint array_filter (f : loc → Upd bool) (l : list loc) : Upd (list loc) :=
  match l with
  | [] => mret []
  | x :: l' => b ← f x; ys ← array_filter f l'; mret (if b : bool then x :: ys else ys)
  end.

(** ** The component's update queues

    [setOpenedApps] receives either a value or an updater function; a value
    is the constant updater.  React keeps the updaters of a cell in a queue
    and runs them, in order, when it renders.  One thing is left to React:
    when the component has no pending work it may run the first updater at
    once, during the dispatch, and keep the result for the render.  The
    source is silent on which of the two happens, so the scheduling is a
    parameter of the model. *)

Inductive policy := Eager | Deferred.

Definition updater := list loc → Upd (list loc).

(** The component between two renders: the objects and the focus queue, the
    [openedApps] cell and its queue. *)
Record Fiber := {
  mem : Mem;
  appsState : list loc;       (* last state of the [openedApps] cell *)
  appsQueue : list updater;   (* its pending updaters *)
  idle : bool                 (* nothing was dispatched since the last render *)
}.

(** Event handlers run over the fiber. *)
Definition Handler := ST Fiber.

(** What an updater may do, a handler may do too. *)
Definition lift {A} (u : Upd A) : Handler A :=
  λ f, let '(a, m) := u (mem f) in
       (a, {| mem := m; appsState := appsState f; appsQueue := appsQueue f;
              idle := idle f |}).

(** The dispatch function of the [openedApps] cell.  Under [Eager] the
    first dispatch of an event runs the updater on the spot: the objects are
    mutated and its own dispatches join the focus queue at once, and the
    array it returns is kept as the state to render.  Every other dispatch
    puts the updater in the queue. *)
Definition setOpenedApps (sched : policy) (u : updater) : Handler unit :=
  λ f,
    match sched, idle f with
    | Eager, true =>
        let '(apps, m) := u (appsState f) (mem f) in
        (tt, {| mem := m; appsState := apps; appsQueue := []; idle := false |})
    | _, _ =>
        (tt, {| mem := mem f; appsState := appsState f;
                appsQueue := appsQueue f ++ [u]; idle := false |})
    end.

(** [setFocusedWindowId] called from a handler. *)
Definition dispatchFocus (v : option string) : Handler unit :=
  λ f, let '(_, m) := setFocusedWindowId v (mem f) in
       (tt, {| mem := m; appsState := appsState f; appsQueue := appsQueue f;
               idle := false |}).

(** ** Registry state between two events *)

Record State := {
  heap : list WindowApp;
  openedApps : list loc;
  focusedWindowId : option string
}.

(** [useState<WindowApp[]>([])], [useState<string | null>(null)] *)
Definition initial : State :=
  {| heap := []; openedApps := []; focusedWindowId := None |}.

(** The queued updaters run in the order of their dispatch, each on the
    array the previous one returned. *)
Definition run_updaters (q : list updater) (apps : list loc) (m : Mem)
  : list loc * Mem :=
  foldl (λ '(apps, m) (u : updater), u apps m) (apps, m) q.

(** Rendering: the [openedApps] cell is the first hook, so its updaters run
    first; what they dispatch to [focusedWindowId] lands behind everything
    the handler dispatched.  The second hook then takes the last value of
    its queue, or keeps its state when the queue is empty. *)
Definition render (s : State) (f : Fiber) : State :=
  let '(apps, m) := run_updaters (appsQueue f) (appsState f) (mem f) in
  {| heap := objs m;
     openedApps := apps;
     focusedWindowId := List.last (focusQueue m) (focusedWindowId s) |}.

(** The component as an event finds it. *)
Definition fiber_of (s : State) : Fiber :=
  {| mem := {| objs := heap s; focusQueue := [] |};
     appsState := openedApps s; appsQueue := []; idle := true |}.

(** One event: the handler runs to completion, then React renders. *)
Definition dispatchEvent (h : Handler unit) (s : State) : State :=
  render s (snd (h (fiber_of s))).

(** ** [AppsContextProvider] *)

(** [!id] for [id : string | null]: null and the empty string are falsy. *)
Definition falsy (i : option string) : bool :=
  match i with
  | None => true
  | Some s => String.eqb s ""
  end.

(** [a === b] for [a : string] and [b : string | null]. *)
Definition strict_eq (a : string) (b : option string) : bool :=
  match b with
  | Some b' => String.eqb a b'
  | None => false
  end.

(** The [reduce] of [getBiggestZIndex] over an array whose elements are read
    from [h]. *)
Definition biggestZIndex (h : list WindowApp) (apps : list loc) : Z :=
  foldl (λ acc app,
           match h !! app with
           | Some a => if acc <? zIndex a then zIndex a else acc
           | None => acc
           end) 0 apps.

Section AppsContextProvider.
(** The scheduling React applies, and the values of the two cells at the
    render the callbacks were created in. *)
Variable sched : policy.
Variable rendered : State.

(** Lines 26-33.  The array is the one of the render; its elements are read
    when the function is called. *)
Definition getBiggestZIndex : Handler Z :=
  lift (gets (λ m, biggestZIndex (objs m) (openedApps rendered))).

(** Lines 35-50. *)
Definition increaseZIndex (i : option string) : Handler unit :=
  if falsy i then mret tt else
  biggest ← getBiggestZIndex;
  setOpenedApps sched (λ prev,
    array_map (λ app,
      o ← load app;
      match o with
      | Some a =>
          (if strict_eq (id a) i
           then store app (set_zIndex (biggest + 1) a)
           else mret tt);;
          mret app
      | None => mret app
      end) prev).

(** Lines 56-81; the [default] branch is unreachable for a
    [WindowAppTypes]. *)
Definition appProps (t : WindowAppTypes) : AppProps :=
  match t with
  | calculator =>
      {| ap_iconSrc := "./calc-icon.png";
         ap_displayName := "Calculator";
         ap_minSize := {| width := "420px"; height := "600px" |} |}
  | tasks =>
      {| ap_iconSrc := "./tasks-icon.png";
         ap_displayName := "Tasks";
         ap_minSize := {| width := "600px"; height := "420px" |} |}
  | other_app =>
      {| ap_iconSrc := "./vite.svg";
         ap_displayName := "Other App";
         ap_minSize := {| width := "420px"; height := "100px" |} |}
  end.

(** Lines 52-97; [uuid] is the string the call [uuidv4()] returns.  The
    entity is a new object. *)
Definition createApp (t : WindowAppTypes) (uuid : string) : Handler loc :=
  biggest ← getBiggestZIndex;
  let props := appProps t in
  lift (alloc
    {| id := uuid; type := t; isFullscreen := false; isMinimalize := false;
       zIndex := biggest + 1;
       iconSrc := ap_iconSrc props; displayName := ap_displayName props;
       minSize := ap_minSize props |}).

(** Lines 99-105. *)
Definition handleSetFocusedWindowId (i : option string) : Handler unit :=
  increaseZIndex i;;
  dispatchFocus i.

(** Lines 107-114. *)
Definition openApp (t : WindowAppTypes) (uuid : string) : Handler unit :=
  newApp ← createApp t uuid;
  setOpenedApps sched (λ prev, mret (prev ++ [newApp]));;
  (* [newApp.id] is read from the object just built *)
  o ← lift (load newApp);
  handleSetFocusedWindowId (id <$> o).

(** Lines 116-118. *)
Definition closeApp (i : string) : Handler unit :=
  setOpenedApps sched (λ prev,
    array_filter (λ app,
      o ← load app;
      mret (match o with
            | Some a => negb (String.eqb (id a) i)
            | None => true
            end)) prev).

(** Lines 120-122. *)
Definition closeAllApps : Handler unit :=
  setOpenedApps sched (λ _, mret []).

(** Lines 124-140.  [focusedWindowId] is the value of the render. *)
Definition setIsMinimalize (i : string) (v : bool) : Handler unit :=
  setOpenedApps sched (λ prev,
    array_map (λ app,
      o ← load app;
      match o with
      | Some a =>
          (if String.eqb (id a) i
           then
             store app (set_isMinimalize v a);;
             if strict_eq i (focusedWindowId rendered)
             then setFocusedWindowId None
             else mret tt
           else mret tt);;
          mret app
      | None => mret app
      end) prev).

(** Lines 142-151. *)
Definition setIsFullscreen (i : string) (v : bool) : Handler unit :=
  setOpenedApps sched (λ prev,
    array_map (λ app,
      o ← load app;
      match o with
      | Some a =>
          (if String.eqb (id a) i
           then store app (set_isFullscreen v a)
           else mret tt);;
          mret app
      | None => mret app
      end) prev).

End AppsContextProvider.

(** ** The [App] component's taskbar gesture

    [App] takes [focusedWindowId] and [actions] from one and the same context
    value, the one of the last render. *)

Section App.
Variable sched : policy.
Variable rendered : State.

(** Lines 48-58 of the [App] component. *)
Definition minimalizedAppOnClick (i : string) (isMin : bool) : Handler unit :=
  if isMin then
    setIsMinimalize sched rendered i false;;
    handleSetFocusedWindowId sched rendered (Some i)
  else if strict_eq i (focusedWindowId rendered) then
    setIsMinimalize sched rendered i true;;
    handleSetFocusedWindowId sched rendered None
  else
    handleSetFocusedWindowId sched rendered (Some i).

End App.

(** ** The read accessor [useApps] *)

(** What the provider hands down: the [value] object of lines 153-167 (its
    [actions] are the handlers above). *)
Record AppsContextValue := {
  cv_openedApps : list loc;
  cv_focusedWindowId : option string
}.

Definition value (s : State) : AppsContextValue :=
  {| cv_openedApps := openedApps s; cv_focusedWindowId := focusedWindowId s |}.

(** A call returns or throws an [Error] with a message. *)
Inductive outcome (A : Type) :=
| Returns (a : A)
| Throws (message : string).
Arguments Returns {A} a.
Arguments Throws {A} message.

(** [useContext(AppsContext)] in a component whose enclosing
    [AppsContext.Provider]s carry the values [providers], innermost first:
    the nearest value, or the default of [createContext], which is [null]
    (line 20). *)
Definition useContext (providers : list AppsContextValue)
  : option AppsContextValue := head providers.

(** Lines 172-180. *)
Definition useApps (providers : list AppsContextValue)
  : outcome AppsContextValue :=
  match useContext providers with
  | None => Throws "useApps has to be used within <AppsContext.Provider>"
  | Some appsContext => Returns appsContext
  end.

(** ** Events

    The six actions of [AppsActions].  [OpenApp] carries the identifier that
    [uuidv4()] produces during the call. *)

Inductive action :=
| OpenApp (t : WindowAppTypes) (uuid : string)
| CloseApp (i : string)
| CloseAllApps
| SetIsMinimalize (i : string) (v : bool)
| SetIsFullscreen (i : string) (v : bool)
| Focus (i : option string).

(** The handler of an action, with the closures of the render of [s];
    [Focus] is [handleSetFocusedWindowId]. *)
Definition handler (sched : policy) (s : State) (a : action) : Handler unit :=
  match a with
  | OpenApp t uuid => openApp sched s t uuid
  | CloseApp i => closeApp sched i
  | CloseAllApps => closeAllApps sched
  | SetIsMinimalize i v => setIsMinimalize sched s i v
  | SetIsFullscreen i v => setIsFullscreen sched i v
  | Focus i => handleSetFocusedWindowId sched s i
  end.

(** Each action is one event. *)
Definition step (sched : policy) (s : State) (a : action) : State :=
  dispatchEvent (handler sched s a) s.

(** Events are handled one after the other. *)
Definition run (sched : policy) (s : State) (tr : list action) : State :=
  foldl (step sched) s tr.

(** The taskbar entry of window [i] passes the flag it was rendered with. *)
Definition click (sched : policy) (s : State) (i : string) (isMin : bool) : State :=
  dispatchEvent (minimalizedAppOnClick sched s i isMin) s.

(** The window objects of a state, in array order. *)
Definition windows (s : State) : list WindowApp :=
  omap (λ l, heap s !! l) (openedApps s).

(** ** Effect of the mapping updaters

    The three [prev.map] updaters visit every element, test its [id] and
    assign one field of the matching objects; the one of [setIsMinimalize]
    also dispatches to the focus queue at every match. *)

(** [if (c(app)) app = f(app)], on the object's value. *)
Definition upd_if (c : WindowApp → bool) (f : WindowApp → WindowApp)
  (a : WindowApp) : WindowApp := if c a then f a else a.

(** The store after the objects referenced from [apps] went through [g]. *)
Definition touch (g : WindowApp → WindowApp) (apps : list loc)
  (h : list WindowApp) : list WindowApp :=
  imap (λ l a, if bool_decide (l ∈ apps) then g a else a) h.

(** What a visit of [apps] appends to the focus queue when every match
    dispatches the values [nf]. *)
Definition pushes (c : WindowApp → bool) (nf : list (option string))
  (apps : list loc) (h : list WindowApp) : list (option string) :=
  flat_map (λ l, match h !! l with
                 | Some a => if c a then nf else []
                 | None => []
                 end) apps.

(** The callback [cb] assigns [f] to the objects passing the test [c],
    dispatches [nf] at each of them, and returns the element it was given. *)
Definition visits (c : WindowApp → bool) (f : WindowApp → WindowApp)
  (nf : list (option string)) (cb : loc → Upd loc) : Prop :=
  ∀ app m,
    cb app m =
    (app, match objs m !! app with
          | Some a =>
              if c a
              then {| objs := <[app := f a]> (objs m);
                      focusQueue := focusQueue m ++ nf |}
              else m
          | None => m
          end).

(** ** Notions the properties are stated with *)

(** The test of [closeApp]'s filter. *)
Definition keeps (i : string) (h : list WindowApp) (l : loc) : bool :=
  match h !! l with
  | Some a => negb (String.eqb (id a) i)
  | None => true
  end.

(** [app.id === id] *)
Definition has_id (i : string) (a : WindowApp) : bool := String.eqb (id a) i.

(** Some open window has the identifier [i]. *)
Definition opened (i : string) (s : State) : bool :=
  existsb (has_id i) (windows s).

(** The store after [increaseZIndex i], the biggest index being [b]. *)
Definition raised (i : option string) (b : Z) (apps : list loc)
  (h : list WindowApp) : list WindowApp :=
  match i with
  | Some i' =>
      if String.eqb i' "" then h
      else touch (upd_if (has_id i') (set_zIndex (b + 1))) apps h
  | None => h
  end.

(** The object [createApp] builds. *)
Definition newWindow (t : WindowAppTypes) (uuid : string) (z : Z) : WindowApp :=
  {| id := uuid; type := t; isFullscreen := false; isMinimalize := false;
     zIndex := z;
     iconSrc := ap_iconSrc (appProps t);
     displayName := ap_displayName (appProps t);
     minSize := ap_minSize (appProps t) |}.

(** [getBiggestZIndex]'s fold, over the indices themselves. *)
Definition biggest_of (zs : list Z) : Z :=
  foldl (λ acc z, if acc <? z then z else acc) 0 zs.

(** The indices of the open windows, in array order. *)
Definition zIndexes (s : State) : list Z := zIndex <$> windows s.

(** No open window has the empty identifier. *)
Definition ids_nonempty (s : State) : Prop :=
  Forall (λ a, id a ≠ "") (windows s).

(** [uuidv4] returns a non-empty string that no open window carries. *)
Definition fresh_for (s : State) (a : action) : Prop :=
  match a with
  | OpenApp _ uuid => uuid ≠ "" ∧ opened uuid s = false
  | _ => True
  end.

(** What every state of the registry satisfies: the array holds distinct
    references to allocated objects, whose identifiers are distinct and
    non-empty and whose indices are distinct and positive. *)
Record wf (s : State) : Prop := {
  wf_refs : Forall (λ l, (l < length (heap s))%nat) (openedApps s);
  wf_locs : NoDup (openedApps s);
  wf_ids : NoDup (id <$> windows s);
  wf_nonempty : ids_nonempty s;
  wf_positive : Forall (λ a, 0 < zIndex a) (windows s);
  wf_zs : NoDup (zIndexes s)
}.

(** Along a run, [P] holds of every action in the state it is applied to. *)
Fixpoint along (P : State → action → Prop) (sched : policy) (s : State)
  (tr : list action) : Prop :=
  match tr with
  | [] => True
  | a :: tr' => P s a ∧ along P sched (step sched s a) tr'
  end.

(** The identifiers drawn along the run are fresh. *)
Definition valid := along fresh_for.

(** The states of the registry: those a run of actions leads to from the
    state of the first render. *)
Definition reachable (sched : policy) (s : State) : Prop :=
  ∃ tr, valid sched initial tr ∧ s = run sched initial tr.

(** The maximum of the indices of the open windows, and [0] when there is
    none, as the specification words the biggest index. *)
Definition max_zIndex (zs : list Z) : Z :=
  match zs with
  | [] => 0
  | z :: zs' => foldr Z.max z zs'
  end.

(** The actions C1 speaks of. *)
Definition is_open_or_focus (a : action) : Prop :=
  match a with
  | OpenApp _ _ | Focus _ => True
  | _ => False
  end.

(** The window an action assigns a [zIndex] to. *)
Definition affected (a : action) (w : WindowApp) : Prop :=
  match a with
  | OpenApp _ uuid => id w = uuid
  | Focus (Some i) => id w = i
  | _ => False
  end.


(** The focus after [setIsMinimalize(id, value)] as the specification has
    it: cleared exactly when [value] is true and [id] is the focused
    identifier, untouched otherwise. *)
Definition focus_after_minimize_spec (s : State) (i : string) (v : bool)
  : option string :=
  if v && strict_eq i (focusedWindowId s) then None else focusedWindowId s.

(** The two cells an action is said to leave alone. *)
Definition cells_unchanged (s s' : State) : Prop :=
  openedApps s' = openedApps s ∧ focusedWindowId s' = focusedWindowId s.

(** At most one open window carries the focused identifier. *)
Definition at_most_one_focused (s : State) : Prop :=
  (length (List.filter (λ w, strict_eq (id w) (focusedWindowId s))
             (windows s)) ≤ 1)%nat.

(** A non-null [focusedWindowId] names an open window. *)
Definition focus_refers_open (s : State) : Prop :=
  ∀ i, focusedWindowId s = Some i → opened i s = true.

(** What an action must avoid for the focus to stay on an open window:
    closing the focused window, by [closeApp] on its identifier or by
    [closeAllApps] while a window is focused, and focusing an identifier no
    open window carries.  Closing any other window is harmless. *)
Definition keeps_target (s : State) (a : action) : Prop :=
  match a with
  | CloseApp i => focusedWindowId s ≠ Some i
  | CloseAllApps => focusedWindowId s = None
  | Focus (Some i) => opened i s = true
  | _ => True
  end.

(** [P] holds in every state a run passes through, the first and the last
    included. *)
Fixpoint throughout (P : State → Prop) (sched : policy) (s : State)
  (tr : list action) : Prop :=
  P s ∧
  match tr with
  | [] => True
  | a :: tr' => throughout P sched (step sched s a) tr'
  end.

(** No open window with its minimize flag set carries the focused
    identifier. *)
Definition no_minimized_focus (s : State) : Prop :=
  Forall (λ w, isMinimalize w = true → focusedWindowId s ≠ Some (id w))
         (windows s).

(** [focus(id)] is applied to windows that are not minimized. *)
Definition focus_unminimized (s : State) (a : action) : Prop :=
  match a with
  | Focus (Some i) =>
      Forall (λ w, id w = i → isMinimalize w = false) (windows s)
  | _ => True
  end.

(** The gesture is one event; its outcome is the one of these actions
    applied one after the other, each as an event of its own. *)
Definition gesture_actions (s : State) (i : string) (isMin : bool)
  : list action :=
  if isMin then [SetIsMinimalize i false; Focus (Some i)]
  else if strict_eq i (focusedWindowId s)
       then [SetIsMinimalize i true; Focus None]
       else [Focus (Some i)].

(** Identifiers as [uuidv4] prints them, for the examples. *)
Definition uuid1 : string := "1b9d6bcd-bbfd-4b2d-9b5d-ab8dfbbd4bed".
Definition uuid2 : string := "9c5b94b1-35ad-49bb-b118-8e8fc24abf80".

(** Example runs from the empty registry. *)
Definition open_one : list action := [OpenApp calculator uuid1].

Definition open_two : list action :=
  [OpenApp calculator uuid1; OpenApp tasks uuid2].

Definition open_close : list action :=
  [OpenApp calculator uuid1; CloseApp uuid1].

(** Two windows opened, then the unfocused one closed. *)
Definition close_unfocused : list action := open_two ++ [CloseApp uuid1].

Definition minimize_then_focus : list action :=
  [OpenApp calculator uuid1; SetIsMinimalize uuid1 true; Focus (Some uuid1)].

Definition one_window : State := run Deferred initial open_one.
Definition two_windows : State := run Deferred initial open_two.
Definition minimized_focused : State := run Deferred initial minimize_then_focus.

(** Two windows, the first minimized, the second focused. *)
Definition one_minimized : State :=
  step Deferred two_windows (SetIsMinimalize uuid1 true).

(** ** What the [App] component renders

    [App] is a function of the context value.  Its output is kept as data:
    one frame per open window in the desktop area, one entry per open
    window in the taskbar, and the three launch buttons of the header. *)

(** The application inside a window frame. *)
Inductive AppBody :=
| Calculator (isFocused : bool)
| Tasks
| OtherAppPlaceholder.

(** The per-application context a frame is wrapped in. *)
Inductive ContextProvider := CalculatorContextProvider | TasksContextProvider.

(** [<WindowWrapper windowApp={app} isFocused={...}>], with its React key,
    its enclosing provider and its child. *)
Record Frame := {
  fr_key : string;
  fr_context : option ContextProvider;
  fr_windowApp : loc;
  fr_isFocused : bool;
  fr_body : AppBody
}.

(** The props of a [<MinimalizedApp>] taskbar entry. *)
Record MinimalizedAppProps := {
  tb_key : string;
  tb_displayName : string;
  tb_iconSrc : string;
  tb_closeApp : Handler unit;
  tb_onClick : Handler unit;
  tb_isFocused : bool
}.

(** A launch button: its handler, given the identifier [uuidv4()] will
    return, and the [src] and [alt] of its image. *)
Record LaunchButton := {
  lb_onClick : string → Handler unit;
  lb_src : string;
  lb_alt : string
}.

Section AppView.
Variable sched : policy.
Variable rendered : State.

(** Lines 16-46 of the [App] component; [app] is the reference and [a] the
    object behind it.  The [default] branch is unreachable. *)
Definition renderApp (app : loc) (a : WindowApp) : Frame :=
  match type a with
  | calculator =>
      {| fr_key := id a;
         fr_context := Some CalculatorContextProvider;
         fr_windowApp := app;
         fr_isFocused := strict_eq (id a) (focusedWindowId rendered);
         fr_body := Calculator (strict_eq (id a) (focusedWindowId rendered)) |}
  | tasks =>
      {| fr_key := id a;
         fr_context := Some TasksContextProvider;
         fr_windowApp := app;
         fr_isFocused := strict_eq (id a) (focusedWindowId rendered);
         fr_body := Tasks |}
  | other_app =>
      {| fr_key := id a;
         fr_context := None;
         fr_windowApp := app;
         fr_isFocused := strict_eq (id a) (focusedWindowId rendered);
         fr_body := OtherAppPlaceholder |}
  end.

(** Line 81: [openedApps.map((app) => renderApp(app))]. *)
Definition pulpit : list Frame :=
  omap (λ app, renderApp app <$> heap rendered !! app) (openedApps rendered).

(** The callback of lines 86-95. *)
Definition taskbarEntry (a : WindowApp) : MinimalizedAppProps :=
  {| tb_key := id a;
     tb_displayName := displayName a;
     tb_iconSrc := iconSrc a;
     tb_closeApp := closeApp sched (id a);
     tb_onClick := minimalizedAppOnClick sched rendered (id a) (isMinimalize a);
     tb_isFocused := strict_eq (id a) (focusedWindowId rendered) |}.

(** Lines 86-95: one entry for every element of [openedApps]. *)
Definition taskbar : list MinimalizedAppProps :=
  omap (λ app, taskbarEntry <$> heap rendered !! app) (openedApps rendered).

(** Lines 66-76. *)
Definition launchers : list LaunchButton :=
  [ {| lb_onClick := openApp sched rendered calculator;
       lb_src := "./calc-icon.png"; lb_alt := "calculator icon" |};
    {| lb_onClick := openApp sched rendered tasks;
       lb_src := "./tasks-icon.png"; lb_alt := "tasks icon" |};
    {| lb_onClick := openApp sched rendered other_app;
       lb_src := "./vite.svg"; lb_alt := "other app" |} ].

End AppView.

(** ** Events of the [App] component's own controls *)

(** A press of the [k]-th launch button (with the identifier drawn), a click
    on the [k]-th taskbar entry, a press of its close button. *)
Inductive ui_event :=
| Launch (k : nat) (uuid : string)
| TaskbarClick (k : nat)
| TaskbarClose (k : nat).

(** The control's handler runs as one event; a control that is not on the
    screen receives none. *)
Definition ui_step (sched : policy) (s : State) (e : ui_event) : State :=
  match e with
  | Launch k uuid =>
      match launchers sched s !! k with
      | Some b => dispatchEvent (lb_onClick b uuid) s
      | None => s
      end
  | TaskbarClick k =>
      match taskbar sched s !! k with
      | Some entry => dispatchEvent (tb_onClick entry) s
      | None => s
      end
  | TaskbarClose k =>
      match taskbar sched s !! k with
      | Some entry => dispatchEvent (tb_closeApp entry) s
      | None => s
      end
  end.

Definition ui_run (sched : policy) (s : State) (evs : list ui_event) : State :=
  foldl (ui_step sched) s evs.

(** [uuidv4] returns a non-empty string that no open window carries. *)
Definition ui_fresh (s : State) (e : ui_event) : Prop :=
  match e with
  | Launch _ uuid => uuid ≠ "" ∧ opened uuid s = false
  | _ => True
  end.

Fixpoint ui_valid (sched : policy) (s : State) (evs : list ui_event) : Prop :=
  match evs with
  | [] => True
  | e :: evs' => ui_fresh s e ∧ ui_valid sched (ui_step sched s e) evs'
  end.

(** ** Further notions *)

(** What an entity is created with and no action assigns. *)
Definition identity (a : WindowApp)
  : string * WindowAppTypes * string * string * Size :=
  (id a, type a, iconSrc a, displayName a, minSize a).

(** The actions whose repetition changes nothing. *)
Definition repeatable (a : action) : Prop :=
  match a with
  | OpenApp _ _ | Focus _ => False
  | _ => True
  end.

(** [w] is strictly above every other open window. *)
Definition on_top (s : State) (w : WindowApp) : Prop :=
  ∀ v, v ∈ windows s → v ≠ w → zIndex v < zIndex w.

(** No open window is above the focused one. *)
Definition focus_highest (s : State) : Prop :=
  ∀ w v, w ∈ windows s → focusedWindowId s = Some (id w) →
         v ∈ windows s → zIndex v ≤ zIndex w.

(** Example presses and clicks. *)
Definition launch_two : list ui_event :=
  [Launch 0 uuid1; Launch 1 uuid2].

Definition launch_minimize : list ui_event :=
  [Launch 0 uuid1; Launch 1 uuid2; TaskbarClick 1].

(** * Properties of the embedding *)

(** ** The mapping updaters *)

Lemma touch_lookup g apps h l :
  touch g apps h !! l =
  (if bool_decide (l ∈ apps) then g else λ a, a) <$> h !! l.
Proof.
  unfold touch. rewrite list_lookup_imap.
  destruct (h !! l); simpl; [|done]. by case_bool_decide.
Qed.

Lemma touch_length g apps h : length (touch g apps h) = length h.
Proof. unfold touch. by rewrite length_imap. Qed.

Lemma touch_nil g h : touch g [] h = h.
Proof.
  apply list_eq; intros l. rewrite touch_lookup.
  rewrite bool_decide_eq_false_2 by apply not_elem_of_nil.
  by destruct (h !! l).
Qed.

Lemma touch_cons g x apps h :
  (∀ a, g (g a) = g a) →
  touch g apps (match h !! x with Some a => <[x := g a]> h | None => h end)
  = touch g (x :: apps) h.
Proof.
  intros Hidem. apply list_eq; intros l. rewrite !touch_lookup.
  assert (Hx : (match h !! x with Some a => <[x := g a]> h | None => h end) !! l
               = (if bool_decide (l = x) then g else λ a, a) <$> h !! l).
  { case_bool_decide as Hl.
    - subst l. destruct (h !! x) eqn:E; [|done].
      rewrite list_lookup_insert_eq by (by eapply lookup_lt_Some). done.
    - destruct (h !! x) eqn:E.
      + rewrite list_lookup_insert_ne by done. by destruct (h !! l).
      + by destruct (h !! l). }
  rewrite Hx. clear Hx.
  destruct (h !! l) as [a|]; simpl; [|by repeat case_bool_decide].
  f_equal.
  destruct (decide (l = x)) as [->|Hne].
  - rewrite (bool_decide_eq_true_2 (x = x)) by done.
    rewrite (bool_decide_eq_true_2 (x ∈ x :: apps)) by apply list_elem_of_here.
    case_bool_decide; [apply Hidem | done].
  - rewrite (bool_decide_eq_false_2 (l = x)) by done.
    rewrite (bool_decide_ext (l ∈ x :: apps) (l ∈ apps)); [done|].
    rewrite elem_of_cons. tauto.
Qed.

Lemma pushes_nil c apps h : pushes c [] apps h = [].
Proof.
  unfold pushes. induction apps as [|x apps IH]; simpl; [done|].
  rewrite IH. destruct (h !! x) as [a|]; [|done]. by destruct (c a).
Qed.

Lemma pushes_step c g nf x apps h :
  (∀ a, c (g a) = c a) →
  pushes c nf apps (match h !! x with Some a => <[x := g a]> h | None => h end)
  = pushes c nf apps h.
Proof.
  intros Hc. unfold pushes. induction apps as [|y apps IH]; simpl; [done|].
  rewrite IH. f_equal.
  destruct (h !! x) as [a|] eqn:E; [|done].
  destruct (decide (y = x)) as [->|Hne].
  - rewrite list_lookup_insert_eq by (by eapply lookup_lt_Some).
    by rewrite E, Hc.
  - by rewrite list_lookup_insert_ne.
Qed.

Lemma array_map_visits c f nf cb apps m :
  (∀ a, c (f a) = c a) → (∀ a, f (f a) = f a) →
  visits c f nf cb →
  array_map cb apps m =
  (apps, {| objs := touch (upd_if c f) apps (objs m);
            focusQueue := focusQueue m ++ pushes c nf apps (objs m) |}).
Proof.
  intros Hc Hf Hcb. revert m.
  assert (Hg : ∀ a, upd_if c f (upd_if c f a) = upd_if c f a).
  { intros a. unfold upd_if. destruct (c a) eqn:E; [|by rewrite E].
    by rewrite Hc, E, Hf. }
  assert (Hcg : ∀ a, c (upd_if c f a) = c a).
  { intros a. unfold upd_if. destruct (c a) eqn:E; [|done]. by rewrite Hc. }
  induction apps as [|x apps IH]; intros m.
  - simpl. unfold mret, ST_ret. rewrite touch_nil, app_nil_r. by destruct m.
  - cbn [array_map]. unfold mbind, ST_bind at 1. rewrite Hcb.
    unfold mbind, ST_bind at 1. rewrite IH. unfold mret, ST_ret.
    f_equal.
    rewrite <- (touch_cons _ x apps (objs m)) by done.
    cbn [pushes flat_map]. fold (pushes c nf apps (objs m)).
    rewrite <- (pushes_step c (upd_if c f) nf x apps (objs m)) by done.
    destruct (objs m !! x) as [a|] eqn:E; [|done].
    destruct (c a) eqn:Ec; simpl.
    + replace (upd_if c f a) with (f a) by (unfold upd_if; by rewrite Ec).
      by rewrite <- app_assoc.
    + replace (upd_if c f a) with a by (unfold upd_if; by rewrite Ec).
      by rewrite list_insert_id.
Qed.

(** Rewrites the run of a mapping updater whose callback is known to visit
    with test [c], assignment [f] and dispatches [nf]. *)
Ltac run_map c f nf Hv :=
  erewrite (λ cb apps m H,
              array_map_visits c f nf cb apps m (λ _, eq_refl) (λ _, eq_refl) H);
  [| exact Hv].

Lemma array_filter_keeps i apps m :
  array_filter (λ app,
      o ← load app;
      mret (match o with
            | Some a => negb (String.eqb (id a) i)
            | None => true
            end)) apps m
  = (List.filter (keeps i (objs m)) apps, m).
Proof.
  induction apps as [|x apps IH]; [done|].
  cbn [array_filter List.filter].
  unfold mbind, ST_bind, mret, ST_ret, load, gets in *. rewrite IH.
  assert (Hk : keeps i (objs m) x =
               match objs m !! x with
               | Some a => negb (String.eqb (id a) i)
               | None => true
               end) by done.
  rewrite Hk. by destruct (objs m !! x).
Qed.

(** ** The actions as state transformers

    For every scheduling, each action leads from one rendered state to the
    next as follows. *)

Lemma step_closeApp sched s i :
  step sched s (CloseApp i) =
  {| heap := heap s;
     openedApps := List.filter (keeps i (heap s)) (openedApps s);
     focusedWindowId := focusedWindowId s |}.
Proof.
  unfold step, dispatchEvent, handler, closeApp, setOpenedApps, render,
    run_updaters, fiber_of.
  destruct sched; cbn; by rewrite array_filter_keeps.
Qed.

Lemma step_closeAllApps sched s :
  step sched s CloseAllApps =
  {| heap := heap s; openedApps := []; focusedWindowId := focusedWindowId s |}.
Proof. by destruct sched. Qed.

Lemma visits_setIsFullscreen i v :
  visits (has_id i) (set_isFullscreen v) []
    (λ app,
       o ← load app;
       match o with
       | Some a =>
           (if String.eqb (id a) i
            then store app (set_isFullscreen v a)
            else mret tt);;
           mret app
       | None => mret app
       end).
Proof.
  intros app m. unfold mbind, ST_bind, load, gets, has_id.
  destruct (objs m !! app) as [a|]; [|done].
  destruct (String.eqb (id a) i); [|done].
  cbn. by rewrite app_nil_r.
Qed.

Lemma step_setIsFullscreen sched s i v :
  step sched s (SetIsFullscreen i v) =
  {| heap := touch (upd_if (has_id i) (set_isFullscreen v)) (openedApps s) (heap s);
     openedApps := openedApps s;
     focusedWindowId := focusedWindowId s |}.
Proof.
  unfold step, dispatchEvent, handler, setIsFullscreen, setOpenedApps, render,
    run_updaters, fiber_of.
  pose proof (visits_setIsFullscreen i v) as Hv.
  destruct sched; cbn; run_map (has_id i) (set_isFullscreen v) (@nil (option string)) Hv;
    cbn; by rewrite pushes_nil.
Qed.

Lemma last_cons_default {A} (l : list A) x d :
  List.last (x :: l) d = List.last l x.
Proof.
  revert x d. induction l as [|y l IH]; intros x d; [done|].
  change (List.last (x :: y :: l) d) with (List.last (y :: l) d).
  by rewrite !IH.
Qed.

Lemma last_app_last {A} (l1 l2 : list A) d :
  List.last (l1 ++ l2) d = List.last l2 (List.last l1 d).
Proof.
  revert d. induction l1 as [|x l1 IH]; intros d; [done|].
  rewrite <- app_comm_cons, !last_cons_default. apply IH.
Qed.

Lemma last_pushes c v apps h d :
  List.last (pushes c [v] apps h) d =
  if existsb c (omap (λ l, h !! l) apps) then v else d.
Proof.
  revert d. induction apps as [|x apps IH]; intros d; [done|].
  unfold pushes in *. cbn [flat_map]. rewrite last_app_last, IH.
  cbn. destruct (h !! x) as [a|]; cbn; [|done].
  destruct (c a); cbn; [|done]. by destruct (existsb _ _).
Qed.

Lemma visits_setIsMinimalize i v focused :
  visits (has_id i) (set_isMinimalize v)
    (if strict_eq i focused then [None] else [])
    (λ app,
       o ← load app;
       match o with
       | Some a =>
           (if String.eqb (id a) i
            then
              store app (set_isMinimalize v a);;
              if strict_eq i focused
              then setFocusedWindowId None
              else mret tt
            else mret tt);;
           mret app
       | None => mret app
       end).
Proof.
  intros app m. unfold mbind, ST_bind, load, gets, has_id.
  destruct (objs m !! app) as [a|]; [|done].
  destruct (String.eqb (id a) i); [|done].
  destruct (strict_eq i focused); cbn; [done|]. by rewrite app_nil_r.
Qed.

Lemma step_setIsMinimalize sched s i v :
  step sched s (SetIsMinimalize i v) =
  {| heap := touch (upd_if (has_id i) (set_isMinimalize v)) (openedApps s) (heap s);
     openedApps := openedApps s;
     focusedWindowId :=
       if strict_eq i (focusedWindowId s) && opened i s
       then None else focusedWindowId s |}.
Proof.
  unfold step, dispatchEvent, handler, setIsMinimalize, setOpenedApps, render,
    run_updaters, fiber_of.
  pose proof (visits_setIsMinimalize i v (focusedWindowId s)) as Hv.
  destruct sched; cbn;
    run_map (has_id i) (set_isMinimalize v)
            (if strict_eq i (focusedWindowId s) then [None] else @nil (option string)) Hv;
    cbn; f_equal;
    (destruct (strict_eq i (focusedWindowId s)); cbn;
     [apply last_pushes | by rewrite pushes_nil]).
Qed.

Lemma visits_increaseZIndex i z :
  visits (has_id i) (set_zIndex z) []
    (λ app,
       o ← load app;
       match o with
       | Some a =>
           (if strict_eq (id a) (Some i)
            then store app (set_zIndex z a)
            else mret tt);;
           mret app
       | None => mret app
       end).
Proof.
  intros app m. unfold mbind, ST_bind, load, gets, has_id, strict_eq.
  destruct (objs m !! app) as [a|]; [|done].
  destruct (String.eqb (id a) i); [|done].
  cbn. by rewrite app_nil_r.
Qed.

Lemma step_focus sched s i :
  step sched s (Focus i) =
  {| heap := raised i (biggestZIndex (heap s) (openedApps s)) (openedApps s) (heap s);
     openedApps := openedApps s;
     focusedWindowId := i |}.
Proof.
  unfold step, dispatchEvent, handler, handleSetFocusedWindowId,
    increaseZIndex, raised.
  destruct i as [i|]; [|by destruct sched].
  cbn [falsy]. destruct (String.eqb i ""); [by destruct sched|].
  unfold getBiggestZIndex, setOpenedApps, dispatchFocus, render,
    run_updaters, fiber_of.
  pose proof (visits_increaseZIndex i
                (biggestZIndex (heap s) (openedApps s) + 1)) as Hv.
  unfold mbind, ST_bind, mret, ST_ret, lift, gets.
  destruct sched; cbn -[biggestZIndex];
    run_map (has_id i) (set_zIndex (biggestZIndex (heap s) (openedApps s) + 1))
            (@nil (option string)) Hv;
    cbn -[biggestZIndex]; by rewrite pushes_nil.
Qed.

Lemma step_openApp sched s t uuid :
  let h := heap s ++
           [newWindow t uuid (biggestZIndex (heap s) (openedApps s) + 1)] in
  let apps := openedApps s ++ [length (heap s)] in
  step sched s (OpenApp t uuid) =
  {| heap := raised (Some uuid) (biggestZIndex h (openedApps s)) apps h;
     openedApps := apps;
     focusedWindowId := Some uuid |}.
Proof.
  intros h apps.
  unfold step, dispatchEvent, handler, openApp, createApp,
    handleSetFocusedWindowId, increaseZIndex, raised.
  unfold getBiggestZIndex, setOpenedApps, dispatchFocus, render,
    run_updaters, fiber_of.
  pose proof (visits_increaseZIndex uuid (biggestZIndex h (openedApps s) + 1))
    as Hv.
  unfold mbind, ST_bind, mret, ST_ret, lift, gets, alloc, load.
  destruct sched; cbn -[biggestZIndex];
    rewrite list_lookup_middle by done; cbn -[biggestZIndex];
    (destruct (String.eqb uuid ""); cbn -[biggestZIndex]; [done|]);
    fold (newWindow t uuid (biggestZIndex (heap s) (openedApps s) + 1));
    fold h;
    run_map (has_id uuid) (set_zIndex (biggestZIndex h (openedApps s) + 1))
            (@nil (option string)) Hv;
    cbn -[biggestZIndex]; by rewrite pushes_nil.
Qed.

(** ** Windows as values *)

Lemma biggestZIndex_omap h apps :
  biggestZIndex h apps = biggest_of (zIndex <$> omap (λ l, h !! l) apps).
Proof.
  unfold biggestZIndex, biggest_of. generalize 0.
  induction apps as [|x apps IH]; intros acc; [done|].
  cbn. destruct (h !! x) as [a|]; cbn; apply IH.
Qed.

Lemma biggestZIndex_windows s :
  biggestZIndex (heap s) (openedApps s) = biggest_of (zIndexes s).
Proof. apply biggestZIndex_omap. Qed.

Lemma omap_touch_sub g apps h apps0 :
  apps0 ⊆ apps →
  omap (λ l, touch g apps h !! l) apps0 = g <$> omap (λ l, h !! l) apps0.
Proof.
  induction apps0 as [|x apps0 IH]; intros Hsub; [done|].
  cbn. rewrite touch_lookup.
  rewrite bool_decide_eq_true_2 by (apply Hsub, list_elem_of_here).
  rewrite IH by (intros y Hy; apply Hsub; by apply list_elem_of_further).
  by destruct (h !! x).
Qed.

Lemma omap_touch g apps h :
  omap (λ l, touch g apps h !! l) apps = g <$> omap (λ l, h !! l) apps.
Proof. by apply omap_touch_sub. Qed.

Lemma biggestZIndex_touch g apps h :
  (∀ a, zIndex (g a) = zIndex a) →
  biggestZIndex (touch g apps h) apps = biggestZIndex h apps.
Proof.
  intros Hz. rewrite !biggestZIndex_omap, omap_touch. f_equal.
  rewrite <- list_fmap_compose. apply list_fmap_ext. intros _ a _. apply Hz.
Qed.

(** ** The taskbar gesture as a state transformer *)

Lemma click_minimized sched s i :
  click sched s i true =
  {| heap :=
       raised (Some i) (biggestZIndex (heap s) (openedApps s)) (openedApps s)
         (touch (upd_if (has_id i) (set_isMinimalize false))
            (openedApps s) (heap s));
     openedApps := openedApps s;
     focusedWindowId :=
       match sched with
       | Eager => Some i
       | Deferred =>
           if strict_eq i (focusedWindowId s) && opened i s
           then None else Some i
       end |}.
Proof.
  unfold click, dispatchEvent, minimalizedAppOnClick, setIsMinimalize,
    handleSetFocusedWindowId, increaseZIndex, raised.
  unfold getBiggestZIndex, setOpenedApps, dispatchFocus, render,
    run_updaters, fiber_of.
  pose proof (visits_setIsMinimalize i false (focusedWindowId s)) as Hm.
  pose proof (visits_increaseZIndex i
                (biggestZIndex (heap s) (openedApps s) + 1)) as Hz.
  set (g := upd_if (has_id i) (set_isMinimalize false)).
  assert (Hb : biggestZIndex (touch g (openedApps s) (heap s)) (openedApps s)
               = biggestZIndex (heap s) (openedApps s)).
  { apply biggestZIndex_touch. intros a. unfold g, upd_if. by destruct (has_id i a). }
  assert (Hl : ∀ d, List.last
                     (Some i ::
                      pushes (has_id i)
                        (if strict_eq i (focusedWindowId s) then [None] else [])
                        (openedApps s) (heap s)) d
                   = if strict_eq i (focusedWindowId s) && opened i s
                     then None else Some i).
  { intros d. rewrite last_cons_default.
    destruct (strict_eq i (focusedWindowId s)); cbn.
    - apply last_pushes.
    - by rewrite pushes_nil. }
  unfold mbind, ST_bind, mret, ST_ret, lift, gets. cbn [falsy].
  destruct sched, (String.eqb i ""); cbn -[biggestZIndex touch pushes List.last];
    run_map (has_id i) (set_isMinimalize false)
            (if strict_eq i (focusedWindowId s) then [None]
             else @nil (option string)) Hm;
    cbn -[biggestZIndex touch pushes List.last]; fold g; rewrite ?Hb;
    try (run_map (has_id i)
              (set_zIndex (biggestZIndex (heap s) (openedApps s) + 1))
              (@nil (option string)) Hz;
         cbn -[biggestZIndex touch pushes List.last]; rewrite pushes_nil, app_nil_r);
    rewrite ?last_app_last, ?Hl; done.
Qed.

Lemma click_focused sched s i :
  strict_eq i (focusedWindowId s) = true →
  click sched s i false =
  {| heap := touch (upd_if (has_id i) (set_isMinimalize true))
               (openedApps s) (heap s);
     openedApps := openedApps s;
     focusedWindowId := None |}.
Proof.
  intros Hfoc.
  unfold click, dispatchEvent, minimalizedAppOnClick. rewrite Hfoc.
  unfold setIsMinimalize, handleSetFocusedWindowId, increaseZIndex,
    setOpenedApps, dispatchFocus, render, run_updaters, fiber_of.
  pose proof (visits_setIsMinimalize i true (focusedWindowId s)) as Hm.
  unfold mbind, ST_bind, mret, ST_ret. cbn [falsy].
  destruct sched; cbn -[touch pushes List.last];
    run_map (has_id i) (set_isMinimalize true)
            (if strict_eq i (focusedWindowId s) then [None]
             else @nil (option string)) Hm;
    cbn -[touch pushes List.last]; f_equal; rewrite Hfoc.
  - by rewrite last_app_last.
  - rewrite last_cons_default, last_pushes. by destruct (existsb _ _).
Qed.

Lemma click_other sched s i :
  strict_eq i (focusedWindowId s) = false →
  click sched s i false = step sched s (Focus (Some i)).
Proof.
  intros Hfoc. unfold click, step, handler, minimalizedAppOnClick.
  by rewrite Hfoc.
Qed.

(** The scheduling is invisible to a single action. *)
Lemma step_sched_irrelevant sched sched' s a :
  step sched s a = step sched' s a.
Proof.
  destruct a.
  - by rewrite (step_openApp sched), (step_openApp sched').
  - by rewrite !step_closeApp.
  - by rewrite !step_closeAllApps.
  - by rewrite !step_setIsMinimalize.
  - by rewrite !step_setIsFullscreen.
  - by rewrite !step_focus.
Qed.

(** ** Window lists after each action *)

Lemma windows_touch g h apps focus :
  windows {| heap := touch g apps h; openedApps := apps;
             focusedWindowId := focus |}
  = g <$> omap (λ l, h !! l) apps.
Proof. apply omap_touch. Qed.

Lemma windows_closeApp sched s i :
  windows (step sched s (CloseApp i)) =
  List.filter (λ a, negb (has_id i a)) (windows s).
Proof.
  rewrite step_closeApp. unfold windows. cbn.
  induction (openedApps s) as [|x apps IH]; [done|].
  cbn. unfold keeps at 1.
  destruct (heap s !! x) as [a|] eqn:E; cbn.
  - unfold has_id at 1. destruct (String.eqb (id a) i); cbn; [done|].
    by rewrite E, IH.
  - by rewrite E.
Qed.

Lemma windows_setIsMinimalize sched s i v :
  windows (step sched s (SetIsMinimalize i v)) =
  upd_if (has_id i) (set_isMinimalize v) <$> windows s.
Proof. rewrite step_setIsMinimalize. apply windows_touch. Qed.

Lemma windows_setIsFullscreen sched s i v :
  windows (step sched s (SetIsFullscreen i v)) =
  upd_if (has_id i) (set_isFullscreen v) <$> windows s.
Proof. rewrite step_setIsFullscreen. apply windows_touch. Qed.

Lemma upd_if_absent c f (ws : list WindowApp) :
  Forall (λ a, c a = false) ws → upd_if c f <$> ws = ws.
Proof.
  induction 1 as [|a ws Ha _ IH]; [done|].
  cbn. rewrite IH. unfold upd_if. by rewrite Ha.
Qed.

Lemma windows_focus sched s i :
  ids_nonempty s →
  windows (step sched s (Focus i)) =
  upd_if (λ a, strict_eq (id a) i)
         (set_zIndex (biggest_of (zIndexes s) + 1)) <$> windows s.
Proof.
  intros Hne. rewrite step_focus, <- biggestZIndex_windows.
  unfold raised. destruct i as [i|].
  - destruct (String.eqb i "") eqn:E.
    + apply String.eqb_eq in E. subst i. symmetry. apply upd_if_absent.
      eapply Forall_impl; [exact Hne|]. intros a Ha. cbn.
      by apply String.eqb_neq.
    + apply windows_touch.
  - symmetry. apply upd_if_absent. by apply Forall_true.
Qed.

Lemma omap_lookup_app (h k : list WindowApp) apps :
  Forall (λ l, (l < length h)%nat) apps →
  omap (λ l, (h ++ k) !! l) apps = omap (λ l, h !! l) apps.
Proof.
  induction 1 as [|x apps Hx _ IH]; [done|].
  cbn. by rewrite IH, lookup_app_l.
Qed.

Lemma opened_false i s :
  opened i s = false ↔ Forall (λ a, has_id i a = false) (windows s).
Proof.
  unfold opened. induction (windows s) as [|a ws IH]; cbn.
  - split; [by constructor|done].
  - rewrite orb_false_iff, Forall_cons, IH. tauto.
Qed.

Lemma opened_true i s :
  opened i s = true ↔ ∃ a, a ∈ windows s ∧ id a = i.
Proof.
  unfold opened. rewrite existsb_exists. unfold has_id.
  split; intros (a & Ha & E); exists a.
  - split; [by apply list_elem_of_In | by apply String.eqb_eq].
  - split; [by apply list_elem_of_In | by apply String.eqb_eq].
Qed.

Lemma windows_openApp sched s t uuid :
  Forall (λ l, (l < length (heap s))%nat) (openedApps s) →
  fresh_for s (OpenApp t uuid) →
  windows (step sched s (OpenApp t uuid)) =
  windows s ++ [newWindow t uuid (biggest_of (zIndexes s) + 1)].
Proof.
  intros Hrefs [Hne Hfresh]. rewrite step_openApp. cbv zeta.
  rewrite biggestZIndex_omap, omap_lookup_app by done.
  fold (windows s). fold (zIndexes s).
  rewrite biggestZIndex_windows.
  set (new := newWindow t uuid (biggest_of (zIndexes s) + 1)).
  unfold raised. apply String.eqb_neq in Hne. rewrite Hne.
  rewrite windows_touch, omap_app, omap_lookup_app by done.
  cbn [omap list_omap]. rewrite list_lookup_middle by done.
  fold (windows s). rewrite fmap_app. f_equal.
  - apply upd_if_absent. by apply opened_false.
  - cbn. unfold upd_if, has_id. cbn. by rewrite String.eqb_refl.
Qed.

(** ** Invariants of the registry *)

Lemma filter_sublist {A} (f : A → bool) (l : list A) :
  List.filter f l `sublist_of` l.
Proof.
  induction l as [|x l IH]; cbn; [constructor|].
  destruct (f x); by constructor.
Qed.

Lemma sublist_Forall_impl {A} (P : A → Prop) (l k : list A) :
  l `sublist_of` k → Forall P k → Forall P l.
Proof.
  induction 1 as [|x l k _ IH|x l k _ IH]; intros HF; [done| |].
  - apply Forall_cons in HF as [? ?]. constructor; auto.
  - apply Forall_cons in HF as [? ?]. auto.
Qed.

Lemma biggest_of_acc acc zs :
  acc ≤ foldl (λ acc z, if acc <? z then z else acc) acc zs ∧
  Forall (λ z, z ≤ foldl (λ acc z, if acc <? z then z else acc) acc zs) zs.
Proof.
  revert acc. induction zs as [|z zs IH]; intros acc; cbn; [split; [lia|done]|].
  destruct (IH (if acc <? z then z else acc)) as [H1 H2].
  destruct (Z.ltb_spec acc z); (split; [lia|constructor; [lia|done]]).
Qed.

Lemma biggest_of_nonneg zs : 0 ≤ biggest_of zs.
Proof. apply biggest_of_acc. Qed.

Lemma biggest_of_ge zs : Forall (λ z, z ≤ biggest_of zs) zs.
Proof. apply biggest_of_acc. Qed.

Lemma fmap_upd_if_proj {B} (p : WindowApp → B) c f (ws : list WindowApp) :
  (∀ a, p (f a) = p a) → p <$> (upd_if c f <$> ws) = p <$> ws.
Proof.
  intros Hp. rewrite <- list_fmap_compose. apply list_fmap_ext.
  intros _ a _. cbn. unfold upd_if. by destruct (c a).
Qed.

Lemma raise_NoDup i z (ws : list WindowApp) :
  NoDup (id <$> ws) → NoDup (zIndex <$> ws) →
  Forall (λ a, zIndex a < z) ws →
  NoDup (zIndex <$> (upd_if (has_id i) (set_zIndex z) <$> ws)).
Proof.
  induction ws as [|a ws IH]; [done|].
  cbn [fmap list_fmap]. rewrite !NoDup_cons, Forall_cons.
  intros [Hid Hids] [Hz Hzs] [Hlt Hlts].
  split; [|by apply IH].
  unfold upd_if at 1, has_id at 1.
  destruct (String.eqb (id a) i) eqn:E; cbn.
  - apply String.eqb_eq in E. subst i.
    rewrite upd_if_absent.
    + intros (b & Hb & Hin)%list_elem_of_fmap.
      rewrite Forall_forall in Hlts. specialize (Hlts b Hin). cbn in Hlts. lia.
    + apply Forall_forall. intros b Hb. unfold has_id.
      apply String.eqb_neq. intros Heq. apply Hid.
      apply list_elem_of_fmap. by exists b.
  - intros (b' & Hb' & (b & -> & Hin)%list_elem_of_fmap)%list_elem_of_fmap.
    unfold upd_if in Hb'. destruct (has_id i b); cbn in Hb'.
    + lia.
    + apply Hz. apply list_elem_of_fmap. by exists b.
Qed.

Lemma wf_initial : wf initial.
Proof. split; cbn; try constructor. Qed.

Lemma raised_length i b apps h : length (raised i b apps h) = length h.
Proof.
  unfold raised. destruct i as [i|]; [|done].
  destruct (String.eqb i ""); [done|]. apply touch_length.
Qed.

Lemma wf_touch s g focus :
  (∀ a, id (g a) = id a) → (∀ a, zIndex (g a) = zIndex a) →
  wf s →
  wf {| heap := touch g (openedApps s) (heap s);
        openedApps := openedApps s; focusedWindowId := focus |}.
Proof.
  intros Hid Hz [].
  assert (Hw : ∀ B (p : WindowApp → B), (∀ a, p (g a) = p a) →
            p <$> (g <$> windows s) = p <$> windows s).
  { intros B p Hp. rewrite <- list_fmap_compose. apply list_fmap_ext.
    intros _ a _. apply Hp. }
  split; unfold ids_nonempty, zIndexes; rewrite ?windows_touch; cbn.
  - by rewrite touch_length.
  - done.
  - fold (windows s). by rewrite Hw.
  - fold (windows s). apply Forall_fmap.
    eapply Forall_impl; [exact wf_nonempty0|]. intros a. cbn. by rewrite Hid.
  - fold (windows s). apply Forall_fmap.
    eapply Forall_impl; [exact wf_positive0|]. intros a. cbn. by rewrite Hz.
  - fold (windows s). by rewrite Hw.
Qed.

Lemma wf_step sched s a :
  wf s → fresh_for s a → wf (step sched s a).
Proof.
  intros Hwf Hfresh. destruct a as [t uuid|i| |i v|i v|i].
  - (* openApp *)
    pose proof (windows_openApp sched s t uuid (wf_refs _ Hwf) Hfresh) as Hw.
    destruct Hwf as [Hrefs Hlocs Hids Hne Hpos Hzs].
    destruct Hfresh as [Hu Hfresh].
    pose proof (biggest_of_nonneg (zIndexes s)) as Hb0.
    pose proof (biggest_of_ge (zIndexes s)) as Hbge.
    split; unfold ids_nonempty, zIndexes; rewrite ?Hw;
      rewrite ?step_openApp; cbn -[raised biggestZIndex].
    + rewrite raised_length, length_app. cbn.
      apply Forall_app. split.
      * eapply Forall_impl; [exact Hrefs|]. cbn. lia.
      * constructor; [lia|done].
    + apply NoDup_app. split; [done|]. split; [|apply NoDup_singleton].
      intros l Hl ->%list_elem_of_singleton.
      rewrite Forall_forall in Hrefs. specialize (Hrefs _ Hl). cbn in Hrefs. lia.
    + rewrite fmap_app. apply NoDup_app. split; [done|].
      split; [|apply NoDup_singleton].
      intros j (b & -> & Hb)%list_elem_of_fmap Hj%list_elem_of_singleton.
      cbn in Hj. apply opened_false in Hfresh.
      rewrite Forall_forall in Hfresh. specialize (Hfresh b Hb).
      unfold has_id in Hfresh. by apply String.eqb_neq in Hfresh.
    + apply Forall_app. split; [done|]. by constructor.
    + apply Forall_app. split; [done|]. constructor; [cbn; lia|done].
    + rewrite fmap_app. apply NoDup_app. split; [done|].
      split; [|apply NoDup_singleton].
      intros z Hz Hz'%list_elem_of_singleton. cbn in Hz'. subst z.
      rewrite Forall_forall in Hbge. specialize (Hbge _ Hz). cbn in Hbge. lia.
  - (* closeApp *)
    pose proof (windows_closeApp sched s i) as Hw.
    destruct Hwf as [Hrefs Hlocs Hids Hne Hpos Hzs].
    pose proof (filter_sublist (λ a, negb (has_id i a)) (windows s)) as Hsub.
    split; unfold ids_nonempty, zIndexes; rewrite ?Hw;
      rewrite ?step_closeApp; cbn.
    + eapply sublist_Forall_impl; [apply filter_sublist|done].
    + eapply sublist_NoDup; [done|apply filter_sublist].
    + eapply sublist_NoDup; [exact Hids|by apply fmap_sublist].
    + eapply sublist_Forall_impl; [exact Hsub|done].
    + eapply sublist_Forall_impl; [exact Hsub|done].
    + eapply sublist_NoDup; [exact Hzs|by apply fmap_sublist].
  - (* closeAllApps *)
    rewrite step_closeAllApps. split; cbn; constructor.
  - (* setIsMinimalize *)
    rewrite step_setIsMinimalize. apply wf_touch; [| |done];
      intros a; unfold upd_if; by destruct (has_id i a).
  - (* setIsFullscreen *)
    rewrite step_setIsFullscreen. apply wf_touch; [| |done];
      intros a; unfold upd_if; by destruct (has_id i a).
  - (* focus *)
    pose proof (windows_focus sched s i (wf_nonempty _ Hwf)) as Hw.
    destruct Hwf as [Hrefs Hlocs Hids Hne Hpos Hzs].
    pose proof (biggest_of_nonneg (zIndexes s)) as Hb0.
    pose proof (biggest_of_ge (zIndexes s)) as Hbge.
    split; unfold ids_nonempty, zIndexes; rewrite ?Hw;
      rewrite ?step_focus; cbn -[raised biggestZIndex].
    + by rewrite raised_length.
    + done.
    + by rewrite fmap_upd_if_proj.
    + apply Forall_fmap. eapply Forall_impl; [exact Hne|].
      intros a. cbn. unfold upd_if. by destruct (strict_eq _ _).
    + apply Forall_fmap. eapply Forall_impl; [exact Hpos|].
      intros a. cbn. unfold upd_if. destruct (strict_eq _ _); cbn; lia.
    + destruct i as [i|].
      * apply raise_NoDup; [done|done|].
        apply Forall_forall. intros a Ha.
        rewrite Forall_forall in Hbge.
        specialize (Hbge (zIndex a) (list_elem_of_fmap_2 zIndex _ _ Ha)).
        cbn in Hbge. lia.
      * rewrite upd_if_absent; [done|]. by apply Forall_true.
Qed.

(** ** Runs *)

Lemma along_app P sched s tr1 tr2 :
  along P sched s (tr1 ++ tr2) ↔
  along P sched s tr1 ∧ along P sched (run sched s tr1) tr2.
Proof.
  revert s. induction tr1 as [|a tr1 IH]; intros s; cbn; [tauto|].
  rewrite IH. tauto.
Qed.

Lemma run_app sched s tr1 tr2 :
  run sched s (tr1 ++ tr2) = run sched (run sched s tr1) tr2.
Proof. apply foldl_app. Qed.

Lemma wf_run sched s tr : wf s → valid sched s tr → wf (run sched s tr).
Proof.
  revert s. induction tr as [|a tr IH]; intros s Hwf Hv; [done|].
  destruct Hv as [Ha Hv]. cbn. apply IH; [by apply wf_step|done].
Qed.

Lemma reachable_wf sched s : reachable sched s → wf s.
Proof. intros (tr & Hv & ->). apply wf_run; [apply wf_initial|done]. Qed.

(** ** The biggest index is the maximum *)

Lemma foldl_biggest_foldr acc zs :
  foldl (λ acc z, if acc <? z then z else acc) acc zs = foldr Z.max acc zs.
Proof.
  revert acc. induction zs as [|z zs IH]; intros acc; [done|].
  cbn. rewrite IH.
  replace (if acc <? z then z else acc) with (Z.max acc z)
    by (destruct (Z.ltb_spec acc z); lia).
  clear IH. induction zs as [|y zs IH]; cbn; lia.
Qed.

Lemma foldr_max_base a b zs :
  a ≤ b → Forall (λ z, a ≤ z) zs →
  Z.max b (foldr Z.max a zs) = foldr Z.max b zs.
Proof.
  intros Hab. induction 1 as [|z zs Hz _ IH]; cbn; lia.
Qed.

Lemma biggest_of_max zs :
  Forall (λ z, 0 < z) zs → biggest_of zs = max_zIndex zs.
Proof.
  unfold biggest_of. rewrite foldl_biggest_foldr.
  destruct 1 as [|z zs Hz Hzs]; [done|].
  cbn. apply foldr_max_base; [lia|].
  eapply Forall_impl; [exact Hzs|]. cbn. lia.
Qed.

Lemma wf_zIndexes_positive s : wf s → Forall (λ z, 0 < z) (zIndexes s).
Proof. intros Hwf. apply Forall_fmap. apply (wf_positive _ Hwf). Qed.

Lemma getBiggestZIndex_fiber s :
  fst (getBiggestZIndex s (fiber_of s)) = biggest_of (zIndexes s).
Proof. cbn -[biggestZIndex]. apply biggestZIndex_windows. Qed.

Lemma createApp_run s t uuid :
  createApp s t uuid (fiber_of s) =
  (length (heap s),
   {| mem := {| objs := heap s ++
                  [newWindow t uuid
                     (biggestZIndex (heap s) (openedApps s) + 1)];
                focusQueue := [] |};
      appsState := openedApps s; appsQueue := []; idle := true |}).
Proof. done. Qed.

(** * The properties of the specification *)

(** ** C1: z-order *)

Lemma biggest_of_in zs : biggest_of zs = 0 ∨ biggest_of zs ∈ zs.
Proof.
  unfold biggest_of. generalize 0 as acc.
  induction zs as [|z zs IH]; intros acc; [by left|].
  cbn. destruct (IH (if acc <? z then z else acc)) as [H|H].
  - destruct (acc <? z); [right; rewrite H; apply list_elem_of_here|by left].
  - right. by apply list_elem_of_further.
Qed.

Lemma biggest_of_le zs zs' :
  (∀ z, z ∈ zs → ∃ z', z' ∈ zs' ∧ z ≤ z') →
  biggest_of zs ≤ biggest_of zs'.
Proof.
  intros H. destruct (biggest_of_in zs) as [->|Hin].
  - apply biggest_of_nonneg.
  - destruct (H _ Hin) as (z' & Hz' & Hle).
    pose proof (biggest_of_ge zs') as Hge.
    rewrite Forall_forall in Hge. specialize (Hge _ Hz'). cbn in Hge. lia.
Qed.

Lemma window_le_biggest s v :
  v ∈ windows s → zIndex v ≤ biggest_of (zIndexes s).
Proof.
  intros Hv. pose proof (biggest_of_ge (zIndexes s)) as Hge.
  rewrite Forall_forall in Hge. apply Hge. by apply list_elem_of_fmap_2.
Qed.

Lemma biggest_step_mono sched s a :
  wf s → fresh_for s a → is_open_or_focus a →
  biggest_of (zIndexes s) ≤ biggest_of (zIndexes (step sched s a)).
Proof.
  intros Hwf Hfresh Ha. apply biggest_of_le. intros z Hz.
  destruct a as [t uuid|i| |i v|i v|i]; try done; unfold zIndexes.
  - rewrite (windows_openApp _ _ _ _ (wf_refs _ Hwf) Hfresh), fmap_app.
    exists z. split; [|lia]. apply elem_of_app. by left.
  - rewrite (windows_focus _ _ _ (wf_nonempty _ Hwf)).
    apply list_elem_of_fmap in Hz as (w & -> & Hw).
    eexists. split.
    + apply list_elem_of_fmap_2, list_elem_of_fmap_2, Hw.
    + unfold upd_if. destruct (strict_eq (id w) i); cbn; [|lia].
      pose proof (window_le_biggest s w Hw). lia.
Qed.

Lemma biggest_run_mono sched s tr :
  wf s → valid sched s tr → Forall is_open_or_focus tr →
  biggest_of (zIndexes s) ≤ biggest_of (zIndexes (run sched s tr)).
Proof.
  revert s. induction tr as [|a tr IH]; intros s Hwf Hv Hof; cbn; [lia|].
  destruct Hv as [Ha Hv]. apply Forall_cons in Hof as [Hof1 Hof].
  etrans; [by apply (biggest_step_mono sched)|].
  apply IH; [by apply wf_step|done|done].
Qed.

Lemma affected_zIndex sched s a w :
  wf s → fresh_for s a →
  w ∈ windows (step sched s a) → affected a w →
  zIndex w = biggest_of (zIndexes s) + 1.
Proof.
  intros Hwf Hfresh Hw Haff.
  destruct a as [t uuid|i| |i v|i v|[i|]]; try done; cbn in Haff.
  - rewrite (windows_openApp _ _ _ _ (wf_refs _ Hwf) Hfresh) in Hw.
    apply elem_of_app in Hw as [Hw|Hw%list_elem_of_singleton]; [|by subst w].
    destruct Hfresh as [_ Hfresh]. apply opened_false in Hfresh.
    rewrite Forall_forall in Hfresh. specialize (Hfresh _ Hw).
    unfold has_id in Hfresh. by apply String.eqb_neq in Hfresh.
  - rewrite (windows_focus _ _ _ (wf_nonempty _ Hwf)) in Hw.
    apply list_elem_of_fmap in Hw as (w0 & -> & Hw0).
    unfold upd_if in *. cbn in *.
    destruct (String.eqb (id w0) i) eqn:E; [done|].
    by apply String.eqb_neq in E.
Qed.

(** C1.  Along every run of [openApp] and [focus] actions from the empty
    registry: the window an action affects ends with a [zIndex] strictly
    above every [zIndex] any window held in any earlier state of the run;
    the windows of the resulting state have pairwise distinct [zIndex]es;
    and the value [getBiggestZIndex] computes for the assignment is the
    maximum [zIndex] of the open windows, 0 when there is none. *)
Theorem zorder_monotone sched tr a :
  Forall is_open_or_focus (tr ++ [a]) →
  valid sched initial (tr ++ [a]) →
  let s := run sched initial tr in
  let s' := step sched s a in
  (∀ w, w ∈ windows s' → affected a w →
     zIndex w = fst (getBiggestZIndex s (fiber_of s)) + 1 ∧
     ∀ tr0 tr1 v, tr = tr0 ++ tr1 → v ∈ windows (run sched initial tr0) →
       zIndex v < zIndex w) ∧
  NoDup (zIndexes s') ∧
  fst (getBiggestZIndex s (fiber_of s)) = max_zIndex (zIndexes s) ∧
  (openedApps s = [] → fst (getBiggestZIndex s (fiber_of s)) = 0).
Proof.
  intros Hof Hv s s'.
  apply Forall_app in Hof as [Hof Hofa]. apply Forall_singleton in Hofa.
  apply along_app in Hv as [Hv [Hfresh _]]. fold s in Hfresh.
  assert (Hwf : wf s) by (apply wf_run; [apply wf_initial|done]).
  rewrite getBiggestZIndex_fiber.
  split; [|split; [|split]].
  - intros w Hw Haff.
    pose proof (affected_zIndex sched s a w Hwf Hfresh Hw Haff) as Hz.
    split; [done|]. intros tr0 tr1 v -> Hv0.
    apply Forall_app in Hof as [Hof0 Hof1].
    apply along_app in Hv as [Hv0' Hv1].
    pose proof (window_le_biggest _ v Hv0) as Hle.
    assert (Hwf0 : wf (run sched initial tr0))
      by (apply wf_run; [apply wf_initial|done]).
    pose proof (biggest_run_mono sched _ tr1 Hwf0 Hv1 Hof1) as Hmono.
    unfold s in Hz. rewrite run_app in Hz. lia.
  - apply wf_zs. by apply wf_step.
  - apply biggest_of_max. by apply wf_zIndexes_positive.
  - intros Hnil. unfold zIndexes, windows. by rewrite Hnil.
Qed.

Lemma zorder_monotone_witness :
  Forall is_open_or_focus (open_two ++ [Focus (Some uuid1)]) ∧
  valid Deferred initial (open_two ++ [Focus (Some uuid1)]) ∧
  zIndexes two_windows = [1; 2] ∧
  zIndexes (step Deferred two_windows (Focus (Some uuid1))) = [3; 2] ∧
  NoDup (zIndexes (step Deferred two_windows (Focus (Some uuid1)))).
Proof.
  assert (Hof : Forall is_open_or_focus (open_two ++ [Focus (Some uuid1)]))
    by (repeat constructor).
  assert (Hv : valid Deferred initial (open_two ++ [Focus (Some uuid1)]))
    by (cbn; repeat split; done).
  split; [exact Hof|]. split; [exact Hv|].
  split; [reflexivity|]. split; [reflexivity|].
  exact (proj1 (proj2 (zorder_monotone Deferred open_two _ Hof Hv))).
Defined.

(** ** C2: minimizing and the focus *)

(** C2, as stated, fails: un-minimizing the focused window clears the
    focus as well.  After [openApp('calculator')] the new window is focused;
    [setIsMinimalize(id, false)] on it runs the updater of lines 126-137,
    whose test at line 131 does not look at the flag. *)
Lemma setIsMinimalize_spec_counterexample :
  focusedWindowId one_window = Some uuid1 ∧
  focusedWindowId (step Deferred one_window (SetIsMinimalize uuid1 false))
    = None ∧
  focusedWindowId (step Deferred one_window (SetIsMinimalize uuid1 false))
    ≠ focus_after_minimize_spec one_window uuid1 false.
Proof. by repeat split. Qed.

(** C2, amended.  [setIsMinimalize(id, value)] sets the flag of every window
    carrying [id] to [value] and changes nothing else in the windows; it
    clears [focusedWindowId] exactly when [id] is the focused identifier and
    some open window carries it, whatever [value] is, and leaves it unchanged
    in every other case. *)
Theorem setIsMinimalize_focus sched s i v :
  let s' := step sched s (SetIsMinimalize i v) in
  focusedWindowId s' =
    (if strict_eq i (focusedWindowId s) && opened i s
     then None else focusedWindowId s) ∧
  windows s' =
    (λ w, if String.eqb (id w) i then set_isMinimalize v w else w)
      <$> windows s ∧
  openedApps s' = openedApps s.
Proof.
  cbv zeta. rewrite windows_setIsMinimalize.
  by rewrite step_setIsMinimalize.
Qed.

(** ** C3: identifiers that are not open *)

Lemma touch_absent c f apps h :
  Forall (λ a, c a = false) (omap (λ l, h !! l) apps) →
  touch (upd_if c f) apps h = h.
Proof.
  intros Habs. apply list_eq. intros l. rewrite touch_lookup.
  destruct (h !! l) as [a|] eqn:E; [|done]. cbn.
  case_bool_decide as Hl; [|done].
  rewrite Forall_forall in Habs. unfold upd_if. rewrite Habs; [done|].
  apply list_elem_of_omap. by exists l.
Qed.

Lemma state_eta s :
  {| heap := heap s; openedApps := openedApps s;
     focusedWindowId := focusedWindowId s |} = s.
Proof. by destruct s. Qed.

Lemma filter_keeps_absent i s :
  opened i s = false →
  List.filter (keeps i (heap s)) (openedApps s) = openedApps s.
Proof.
  intros Habs%opened_false. unfold windows in Habs.
  induction (openedApps s) as [|x apps IH]; [done|].
  cbn in *. unfold keeps at 1.
  destruct (heap s !! x) as [a|]; cbn in *.
  - apply Forall_cons in Habs as [Ha Habs]. unfold has_id in Ha.
    rewrite Ha. cbn. by rewrite IH.
  - by rewrite IH.
Qed.

(** C3, as stated, fails for [focus]: on the empty registry,
    [focus(id)] runs line 102 like for any other argument and
    [focusedWindowId] becomes [id]. *)
Lemma absent_id_noop_counterexample :
  opened uuid1 initial = false ∧
  focusedWindowId (step Deferred initial (Focus (Some uuid1))) = Some uuid1 ∧
  ¬ cells_unchanged initial (step Deferred initial (Focus (Some uuid1))).
Proof.
  split; [done|]. split; [done|]. intros [_ H]. discriminate H.
Qed.

(** C3, amended.  When no open window carries [id], each of [closeApp(id)],
    [setIsMinimalize(id, v)] and [setIsFullscreen(id, v)] leaves the whole
    state (array, objects and focus) as it was; [focus(id)] leaves the array
    and the objects as they were but makes [id] the focused identifier.
    All four are total. *)
Theorem absent_id_noop sched s i v :
  opened i s = false →
  step sched s (CloseApp i) = s ∧
  step sched s (SetIsMinimalize i v) = s ∧
  step sched s (SetIsFullscreen i v) = s ∧
  step sched s (Focus (Some i)) =
    {| heap := heap s; openedApps := openedApps s;
       focusedWindowId := Some i |}.
Proof.
  intros Habs. pose proof (proj1 (opened_false i s) Habs) as Hall.
  repeat split.
  - rewrite step_closeApp, filter_keeps_absent by done. apply state_eta.
  - rewrite step_setIsMinimalize, touch_absent, Habs, andb_false_r by done.
    apply state_eta.
  - rewrite step_setIsFullscreen, touch_absent by done. apply state_eta.
  - rewrite step_focus. unfold raised.
    destruct (String.eqb i ""); [done|]. by rewrite touch_absent.
Qed.

Lemma absent_id_noop_witness :
  opened uuid2 one_window = false ∧
  step Deferred one_window (CloseApp uuid2) = one_window ∧
  step Deferred one_window (SetIsMinimalize uuid2 true) = one_window ∧
  focusedWindowId (step Deferred one_window (Focus (Some uuid2))) = Some uuid2.
Proof.
  destruct (absent_id_noop Deferred one_window uuid2 true eq_refl)
    as (H1 & H2 & _ & H4).
  split; [reflexivity|]. split; [exact H1|]. split; [exact H2|].
  rewrite H4. reflexivity.
Defined.

(** ** C4: the focused identifier *)

(** C4, as stated, fails: [closeApp] (line 117) only filters the array, so
    closing the focused window leaves its identifier in
    [focusedWindowId]. *)
Lemma focus_refers_open_counterexample :
  valid Deferred initial open_close ∧
  openedApps (run Deferred initial open_close) = [] ∧
  focusedWindowId (run Deferred initial open_close) = Some uuid1 ∧
  ¬ (at_most_one_focused (run Deferred initial open_close) ∧
     focus_refers_open (run Deferred initial open_close)).
Proof.
  split; [cbn; by repeat split|]. split; [done|]. split; [done|].
  intros [_ H]. specialize (H uuid1 eq_refl). discriminate H.
Qed.

Lemma filter_none {A} (f : A → bool) (l : list A) :
  Forall (λ a, f a = false) l → List.filter f l = [].
Proof. induction 1 as [|a l Ha _ IH]; [done|]. cbn. by rewrite Ha. Qed.

Lemma NoDup_ids_filter i (ws : list WindowApp) :
  NoDup (id <$> ws) → (length (List.filter (has_id i) ws) ≤ 1)%nat.
Proof.
  induction ws as [|a ws IH]; cbn; [lia|].
  rewrite NoDup_cons. intros [Ha Hws]. specialize (IH Hws).
  unfold has_id at 1. destruct (String.eqb (id a) i) eqn:E; [|done].
  apply String.eqb_eq in E. subst i. cbn.
  rewrite filter_none; [done|].
  apply Forall_forall. intros b Hb. unfold has_id.
  apply String.eqb_neq. intros Heq. apply Ha.
  apply list_elem_of_fmap. by exists b.
Qed.

Lemma opened_fmap i g s s' :
  (∀ a, id (g a) = id a) → windows s' = g <$> windows s →
  opened i s' = opened i s.
Proof.
  intros Hid Hw. unfold opened. rewrite Hw. clear Hw.
  induction (windows s) as [|a ws IH]; [done|].
  cbn. rewrite IH. unfold has_id. by rewrite Hid.
Qed.

Lemma opened_setIsMinimalize sched s i v j :
  opened j (step sched s (SetIsMinimalize i v)) = opened j s.
Proof.
  apply (opened_fmap j (upd_if (has_id i) (set_isMinimalize v)));
    [|apply windows_setIsMinimalize].
  intros a. unfold upd_if. by destruct (has_id i a).
Qed.

Lemma opened_setIsFullscreen sched s i v j :
  opened j (step sched s (SetIsFullscreen i v)) = opened j s.
Proof.
  apply (opened_fmap j (upd_if (has_id i) (set_isFullscreen v)));
    [|apply windows_setIsFullscreen].
  intros a. unfold upd_if. by destruct (has_id i a).
Qed.

Lemma opened_focus sched s i j :
  ids_nonempty s → opened j (step sched s (Focus i)) = opened j s.
Proof.
  intros Hne.
  apply (opened_fmap j (upd_if (λ a, strict_eq (id a) i)
                          (set_zIndex (biggest_of (zIndexes s) + 1))));
    [|by apply windows_focus].
  intros a. unfold upd_if. by destruct (strict_eq (id a) i).
Qed.

Lemma focus_openApp sched s t uuid :
  focusedWindowId (step sched s (OpenApp t uuid)) = Some uuid.
Proof. by rewrite step_openApp. Qed.

Lemma opened_closeApp_self sched s i :
  opened i (step sched s (CloseApp i)) = false.
Proof.
  apply opened_false. rewrite windows_closeApp.
  apply Forall_forall. intros a Ha.
  apply list_elem_of_In, filter_In in Ha. destruct Ha as [_ Ha].
  by destruct (has_id i a).
Qed.

Lemma opened_closeApp_other sched s i j :
  j ≠ i → opened j (step sched s (CloseApp i)) = opened j s.
Proof.
  intros Hne. unfold opened. rewrite windows_closeApp.
  induction (windows s) as [|a ws IH]; [done|].
  cbn [List.filter existsb].
  destruct (has_id i a) eqn:E; cbn [negb existsb]; [|by rewrite IH].
  apply String.eqb_eq in E. rewrite IH.
  replace (has_id j a) with false; [done|].
  symmetry. apply String.eqb_neq. congruence.
Qed.

Lemma opened_closeAllApps sched s j :
  opened j (step sched s CloseAllApps) = false.
Proof. by rewrite step_closeAllApps. Qed.

Lemma focus_refers_open_step sched s a :
  wf s → fresh_for s a → keeps_target s a →
  focus_refers_open s → focus_refers_open (step sched s a).
Proof.
  intros Hwf Hfresh Hkeep Hinv j.
  destruct a as [t uuid|i| |i v|i v|i].
  - rewrite focus_openApp. intros [= <-].
    apply opened_true.
    exists (newWindow t uuid (biggest_of (zIndexes s) + 1)). split; [|done].
    rewrite (windows_openApp _ _ _ _ (wf_refs _ Hwf) Hfresh).
    apply elem_of_app. right. apply list_elem_of_here.
  - cbn in Hkeep. intros Hj.
    assert (Hf : focusedWindowId s = Some j) by (by rewrite step_closeApp in Hj).
    rewrite opened_closeApp_other; [by apply Hinv | congruence].
  - cbn in Hkeep. rewrite step_closeAllApps. cbn. by rewrite Hkeep.
  - rewrite opened_setIsMinimalize, step_setIsMinimalize. cbn.
    destruct (strict_eq i (focusedWindowId s) && opened i s); [done|apply Hinv].
  - rewrite opened_setIsFullscreen, step_setIsFullscreen. apply Hinv.
  - rewrite opened_focus by apply (wf_nonempty _ Hwf).
    rewrite step_focus. cbn. intros ->. exact Hkeep.
Qed.

(** Each condition of [keeps_target] is needed: from a state whose focus
    names an open window, an action that breaks it leaves a focus that names
    none. *)
Lemma focus_refers_open_step_inv sched s a :
  wf s → focus_refers_open s → focus_refers_open (step sched s a) →
  keeps_target s a.
Proof.
  intros Hwf Hinv Hafter.
  destruct a as [t uuid|i| |i v|i v|[i|]]; cbn; try done.
  - intros Hf. specialize (Hafter i).
    rewrite opened_closeApp_self, step_closeApp in Hafter.
    by specialize (Hafter Hf).
  - destruct (focusedWindowId s) as [j|] eqn:Hf; [|done].
    specialize (Hafter j).
    rewrite opened_closeAllApps, step_closeAllApps in Hafter.
    by specialize (Hafter Hf).
  - specialize (Hafter i).
    rewrite opened_focus in Hafter by apply (wf_nonempty _ Hwf).
    rewrite step_focus in Hafter. by apply Hafter.
Qed.

Lemma throughout_last (P : State → Prop) sched s tr :
  throughout P sched s tr → P (run sched s tr).
Proof.
  revert s. induction tr as [|a tr IH]; intros s [H Htr]; [done|].
  by apply IH.
Qed.

Lemma keeps_target_throughout sched s tr :
  wf s → valid sched s tr → focus_refers_open s →
  along keeps_target sched s tr ↔ throughout focus_refers_open sched s tr.
Proof.
  revert s. induction tr as [|a tr IH]; intros s Hwf Hv Hinv; [by cbn|].
  destruct Hv as [Ha Hv]. cbn [along throughout]. split.
  - intros [Hk Htr]. split; [done|].
    apply IH; [by apply wf_step|done|by apply focus_refers_open_step|done].
  - intros [_ Htr].
    assert (Hnext : focus_refers_open (step sched s a))
      by (destruct tr; apply Htr).
    split; [by apply (focus_refers_open_step_inv sched)|].
    apply IH; [by apply wf_step|done|done|done].
Qed.

(** C4, amended.  After every run from the empty registry, at most one open
    window carries the focused identifier.  A non-null [focusedWindowId]
    names an open window in every state of the run exactly when the run
    never closes the focused window, by [closeApp] on the focused
    identifier or by [closeAllApps] while a window is focused, and applies
    [focus(id)] only to identifiers that are open at that moment (or to
    null); closing unfocused windows is allowed.  In particular the focus
    then names an open window at the end of the run. *)
Theorem focus_at_most_one sched tr :
  valid sched initial tr →
  at_most_one_focused (run sched initial tr) ∧
  (along keeps_target sched initial tr ↔
   throughout focus_refers_open sched initial tr) ∧
  (along keeps_target sched initial tr →
   focus_refers_open (run sched initial tr)).
Proof.
  intros Hv.
  assert (H0 : focus_refers_open initial) by (by intros i).
  pose proof (keeps_target_throughout sched initial tr wf_initial Hv H0) as Hiff.
  split; [|split; [exact Hiff|]].
  - pose proof (wf_run sched initial tr wf_initial Hv) as Hwf.
    unfold at_most_one_focused.
    destruct (focusedWindowId (run sched initial tr)) as [i|].
    + apply (NoDup_ids_filter i), (wf_ids _ Hwf).
    + cbn. induction (windows _); cbn; [lia|done].
  - intros Hk. apply throughout_last. by apply Hiff.
Qed.

Lemma focus_at_most_one_witness :
  valid Deferred initial close_unfocused ∧
  along keeps_target Deferred initial close_unfocused ∧
  id <$> windows (run Deferred initial close_unfocused) = [uuid2] ∧
  at_most_one_focused (run Deferred initial close_unfocused) ∧
  throughout focus_refers_open Deferred initial close_unfocused ∧
  focus_refers_open (run Deferred initial close_unfocused).
Proof.
  assert (Hv : valid Deferred initial close_unfocused)
    by (cbn; by repeat split).
  assert (Hk : along keeps_target Deferred initial close_unfocused)
    by (cbn; by repeat split).
  destruct (focus_at_most_one Deferred _ Hv) as (H1 & H2 & H3).
  split; [exact Hv|]. split; [exact Hk|]. split; [reflexivity|].
  split; [exact H1|]. split; [by apply H2|exact (H3 Hk)].
Defined.

(** ** C5: minimized windows and the focus *)

(** C5, as stated, fails: [handleSetFocusedWindowId] (lines 99-105) never
    reads the minimize flag, so [focus(id)] on a minimized window leaves it
    minimized and makes it the focused one. *)
Lemma no_minimized_focus_counterexample :
  valid Deferred initial minimize_then_focus ∧
  isMinimalize <$> windows minimized_focused = [true] ∧
  focusedWindowId minimized_focused = Some uuid1 ∧
  ¬ no_minimized_focus minimized_focused.
Proof.
  split; [cbn; by repeat split|]. split; [done|]. split; [done|].
  intros H. apply Forall_cons in H as [H _]. by apply H.
Qed.

Lemma no_minimized_focus_step sched s a :
  wf s → fresh_for s a → focus_unminimized s a →
  no_minimized_focus s → no_minimized_focus (step sched s a).
Proof.
  intros Hwf Hfresh Hun Hinv. unfold no_minimized_focus in *.
  destruct a as [t uuid|i| |i v|i v|i].
  - rewrite focus_openApp,
      (windows_openApp _ _ _ _ (wf_refs _ Hwf) Hfresh).
    apply Forall_app. split; [|by constructor].
    destruct Hfresh as [_ Hfresh]. apply opened_false in Hfresh.
    apply Forall_forall. intros w Hw _ [= Heq].
    rewrite Forall_forall in Hfresh. specialize (Hfresh _ Hw).
    unfold has_id in Hfresh. apply String.eqb_neq in Hfresh. by apply Hfresh.
  - rewrite windows_closeApp.
    eapply sublist_Forall_impl; [apply filter_sublist|].
    by rewrite step_closeApp.
  - rewrite step_closeAllApps. constructor.
  - rewrite windows_setIsMinimalize, step_setIsMinimalize. cbn.
    apply Forall_fmap, Forall_forall. intros w Hw. cbn.
    rewrite Forall_forall in Hinv. specialize (Hinv _ Hw).
    assert (Hop : has_id i w = true → opened i s = true).
    { intros E. apply opened_true. exists w. split; [done|].
      by apply String.eqb_eq. }
    unfold upd_if.
    destruct (has_id i w) eqn:E; cbn.
    + rewrite (Hop eq_refl), andb_true_r.
      apply String.eqb_eq in E. rewrite E.
      destruct (focusedWindowId s) as [j|]; cbn; [|done].
      destruct (String.eqb i j) eqn:Ej; [done|].
      apply String.eqb_neq in Ej. intros _ [= ->]. done.
    + intros Hm. specialize (Hinv Hm).
      by destruct (strict_eq i (focusedWindowId s) && opened i s).
  - rewrite windows_setIsFullscreen, step_setIsFullscreen. cbn.
    apply Forall_fmap. eapply Forall_impl; [exact Hinv|].
    intros w. cbn. unfold upd_if. by destruct (has_id i w).
  - rewrite (windows_focus _ _ _ (wf_nonempty _ Hwf)), step_focus. cbn.
    apply Forall_fmap, Forall_forall. intros w Hw. cbn.
    replace (isMinimalize (upd_if _ _ w)) with (isMinimalize w)
      by (unfold upd_if; by destruct (strict_eq (id w) i)).
    replace (id (upd_if _ _ w)) with (id w)
      by (unfold upd_if; by destruct (strict_eq (id w) i)).
    destruct i as [i|]; [|done]. cbn in Hun.
    rewrite Forall_forall in Hun. specialize (Hun _ Hw).
    intros Hm [= ->]. rewrite Hun in Hm; done.
Qed.

(** C5, amended.  After every run from the empty registry in which
    [focus(id)] is only applied while no open window carrying [id] is
    minimized, no minimized window is the focused one. *)
Theorem no_minimized_focus_run sched tr :
  valid sched initial tr →
  along focus_unminimized sched initial tr →
  no_minimized_focus (run sched initial tr).
Proof.
  assert (Hgen : ∀ s, wf s → valid sched s tr →
                   along focus_unminimized sched s tr →
                   no_minimized_focus s → no_minimized_focus (run sched s tr)).
  { induction tr as [|a tr IH]; intros s Hwf Hv Hu Hinv; [done|].
    destruct Hv as [Ha Hv], Hu as [Hua Hu]. cbn.
    apply IH; [by apply wf_step|done|done|by apply no_minimized_focus_step]. }
  intros Hv Hu. apply Hgen; [apply wf_initial|done|done|constructor].
Qed.

Lemma no_minimized_focus_run_witness :
  valid Deferred initial
    (open_two ++ [Focus (Some uuid1); SetIsMinimalize uuid1 true]) ∧
  along focus_unminimized Deferred initial
    (open_two ++ [Focus (Some uuid1); SetIsMinimalize uuid1 true]) ∧
  isMinimalize <$> windows
    (run Deferred initial
       (open_two ++ [Focus (Some uuid1); SetIsMinimalize uuid1 true]))
    = [true; false] ∧
  no_minimized_focus
    (run Deferred initial
       (open_two ++ [Focus (Some uuid1); SetIsMinimalize uuid1 true])).
Proof.
  assert (Hv : valid Deferred initial
                 (open_two ++ [Focus (Some uuid1); SetIsMinimalize uuid1 true]))
    by (cbn; by repeat split).
  assert (Hu : along focus_unminimized Deferred initial
                 (open_two ++ [Focus (Some uuid1); SetIsMinimalize uuid1 true])).
  { cbn. repeat split. repeat constructor. }
  split; [exact Hv|]. split; [exact Hu|]. split; [reflexivity|].
  exact (no_minimized_focus_run Deferred _ Hv Hu).
Defined.

(** ** C6: focus *)

(** C6.  In every reachable state, [focus(id)] with a non-null [id] gives
    every window carrying that identifier the [zIndex] "current maximum plus
    one" (whatever it held before, the maximum included), leaves all other
    windows and the array as they were, and makes [id] the focused
    identifier; [focus(null)] clears the focus and changes nothing else. *)
Theorem focus_raises sched s i :
  reachable sched s →
  (let s' := step sched s (Focus (Some i)) in
   windows s' =
     (λ w, if String.eqb (id w) i
           then set_zIndex (max_zIndex (zIndexes s) + 1) w
           else w) <$> windows s ∧
   openedApps s' = openedApps s ∧
   focusedWindowId s' = Some i) ∧
  step sched s (Focus None) =
    {| heap := heap s; openedApps := openedApps s; focusedWindowId := None |}.
Proof.
  intros Hwf%reachable_wf. split; [|by rewrite step_focus].
  cbv zeta. rewrite (windows_focus _ _ _ (wf_nonempty _ Hwf)).
  rewrite (biggest_of_max _ (wf_zIndexes_positive _ Hwf)).
  by rewrite step_focus.
Qed.

Lemma focus_raises_witness :
  reachable Deferred two_windows ∧
  zIndexes two_windows = [1; 2] ∧
  zIndexes (step Deferred two_windows (Focus (Some uuid2))) = [1; 3] ∧
  focusedWindowId (step Deferred two_windows (Focus (Some uuid2))) = Some uuid2.
Proof.
  assert (Hr : reachable Deferred two_windows).
  { exists open_two. split; [|reflexivity]. cbn. by repeat split. }
  split; [exact Hr|]. split; [reflexivity|].
  destruct (focus_raises Deferred two_windows uuid2 Hr) as [(Hw & _ & Hf) _].
  split; [|exact Hf]. unfold zIndexes. rewrite Hw. reflexivity.
Defined.

(** ** C7: the factory *)

(** C7.  In every reachable state, [createApp] builds, for ['calculator'],
    an entity named "Calculator" of minimum size 420px by 600px, with both
    flags false and a [zIndex] one above the current maximum (1 when nothing
    is open); for ['tasks'] the name is "Tasks" and the size 600px by 420px,
    for ['other-app'] "Other App" and 420px by 100px.  The entity carries
    the fresh identifier and the requested type. *)
Theorem createApp_factory sched s t uuid :
  reachable sched s →
  ∃ l f w,
    createApp s t uuid (fiber_of s) = (l, f) ∧
    objs (mem f) !! l = Some w ∧
    id w = uuid ∧ type w = t ∧
    isFullscreen w = false ∧ isMinimalize w = false ∧
    zIndex w = max_zIndex (zIndexes s) + 1 ∧
    (openedApps s = [] → zIndex w = 1) ∧
    (displayName w, minSize w) =
      match t with
      | calculator => ("Calculator", {| width := "420px"; height := "600px" |})
      | tasks => ("Tasks", {| width := "600px"; height := "420px" |})
      | other_app => ("Other App", {| width := "420px"; height := "100px" |})
      end.
Proof.
  intros Hwf%reachable_wf.
  pose proof (biggest_of_max _ (wf_zIndexes_positive _ Hwf)) as Hmax.
  eexists _, _, _. split; [apply createApp_run|].
  cbn -[biggestZIndex]. rewrite list_lookup_middle by done.
  split; [reflexivity|]. cbn -[biggestZIndex].
  rewrite biggestZIndex_windows, Hmax.
  repeat split.
  - intros Hnil. unfold zIndexes, windows. by rewrite Hnil.
  - by destruct t.
Qed.

Lemma createApp_factory_witness :
  reachable Deferred one_window ∧
  ∃ l f w,
    createApp one_window tasks uuid2 (fiber_of one_window) = (l, f) ∧
    objs (mem f) !! l = Some w ∧ zIndex w = 2 ∧ displayName w = "Tasks".
Proof.
  assert (Hr : reachable Deferred one_window).
  { exists open_one. split; [|done]. cbn. by repeat split. }
  split; [exact Hr|].
  destruct (createApp_factory Deferred _ tasks uuid2 Hr)
    as (l & f & w & H1 & H2 & _ & _ & _ & _ & H3 & _ & H4).
  exists l, f, w. repeat split; [done|done|exact H3|congruence].
Defined.

(** ** C8: closing *)


Lemma windows_length s :
  Forall (λ l, (l < length (heap s))%nat) (openedApps s) →
  length (windows s) = length (openedApps s).
Proof.
  unfold windows. induction 1 as [|x apps Hx _ IH]; [done|].
  cbn. destruct (lookup_lt_is_Some_2 _ _ Hx) as [a Ha].
  rewrite Ha. cbn. by rewrite IH.
Qed.



(** ** C9: the taskbar gesture *)

Lemma click_as_run sched s i isMin :
  sched = Eager ∨ isMin = false
  ∨ strict_eq i (focusedWindowId s) && opened i s = false →
  click sched s i isMin = run sched s (gesture_actions s i isMin).
Proof.
  intros Hcase. unfold gesture_actions. destruct isMin.
  - rewrite click_minimized. cbn [run foldl].
    rewrite step_focus, step_setIsMinimalize. cbn -[raised biggestZIndex].
    rewrite biggestZIndex_touch
      by (intros a; unfold upd_if; by destruct (has_id i a)).
    f_equal. destruct Hcase as [->|[?|Hf]]; [done|done|].
    destruct sched; [done|]. by rewrite Hf.
  - destruct (strict_eq i (focusedWindowId s)) eqn:Hf.
    + rewrite click_focused by done. cbn [run foldl].
      by rewrite step_focus, step_setIsMinimalize.
    + by rewrite click_other.
Qed.

(** In the remaining case the updater's dispatch comes last. *)
Lemma click_corner s i :
  strict_eq i (focusedWindowId s) && opened i s = true →
  click Deferred s i true =
  run Deferred s [SetIsMinimalize i false; Focus (Some i); Focus None].
Proof.
  intros Hcase. rewrite click_minimized. cbn [run foldl].
  rewrite !step_focus, step_setIsMinimalize. cbn -[raised biggestZIndex].
  rewrite biggestZIndex_touch
    by (intros a; unfold upd_if; by destruct (has_id i a)).
  by rewrite Hcase.
Qed.

Lemma along_all P sched s tr :
  Forall (λ a, ∀ s', P s' a) tr → along P sched s tr.
Proof.
  intros HP. revert s. induction HP as [|a tr Ha _ IH]; intros s; [done|].
  split; [apply Ha|apply IH].
Qed.

Lemma reachable_run sched s tr :
  reachable sched s → valid sched s tr → reachable sched (run sched s tr).
Proof.
  intros (tr0 & Hv0 & ->) Hv. exists (tr0 ++ tr). split.
  - by apply along_app.
  - by rewrite run_app.
Qed.

Lemma click_is_run sched s i isMin :
  ∃ tr, Forall (λ a, ∀ s', fresh_for s' a) tr ∧
        click sched s i isMin = run sched s tr.
Proof.
  destruct (strict_eq i (focusedWindowId s) && opened i s) eqn:Hc.
  - destruct sched, isMin.
    + eexists. split; [|apply click_as_run; by left].
      cbn. by repeat constructor.
    + eexists. split; [|apply click_as_run; by right; left].
      unfold gesture_actions.
      destruct (strict_eq i (focusedWindowId s)); by repeat constructor.
    + eexists. split; [|by apply click_corner]. by repeat constructor.
    + eexists. split; [|apply click_as_run; by right; left].
      unfold gesture_actions.
      destruct (strict_eq i (focusedWindowId s)); by repeat constructor.
  - eexists. split; [|apply click_as_run; by right; right].
    unfold gesture_actions.
    destruct isMin; [|destruct (strict_eq i (focusedWindowId s))];
      by repeat constructor.
Qed.

(** The gesture does not leave the states of the registry. *)
Lemma click_reachable sched s i isMin :
  reachable sched s → reachable sched (click sched s i isMin).
Proof.
  intros Hr. destruct (click_is_run sched s i isMin) as (tr & Hfresh & ->).
  apply reachable_run; [done|]. by apply along_all.
Qed.

(** What the click does on the taskbar entry of an open window [id] of a
    reachable state, rendered with that window's minimize flag, whichever
    way React schedules the updaters.  A minimized window is un-minimized
    and raised to the maximum plus one; it ends focused when it was not the
    focused window already, or when React ran the first updater during the
    dispatch.  Else, a focused window is minimized and the focus cleared.
    Else the window is raised and focused, its minimize flag unchanged.  No
    other window changes. *)
Lemma gesture_behaviour sched s w :
  reachable sched s → w ∈ windows s →
  let i := id w in
  let s' := click sched s i (isMinimalize w) in
  let top := max_zIndex (zIndexes s) + 1 in
  openedApps s' = openedApps s ∧
  if isMinimalize w then
    windows s' =
      (λ a, if String.eqb (id a) i
            then set_zIndex top (set_isMinimalize false a) else a)
        <$> windows s ∧
    (sched = Eager ∨ focusedWindowId s ≠ Some i →
     focusedWindowId s' = Some i)
  else if strict_eq i (focusedWindowId s) then
    windows s' =
      (λ a, if String.eqb (id a) i then set_isMinimalize true a else a)
        <$> windows s ∧
    focusedWindowId s' = None
  else
    windows s' =
      (λ a, if String.eqb (id a) i then set_zIndex top a else a)
        <$> windows s ∧
    focusedWindowId s' = Some i.
Proof.
  intros Hwf%reachable_wf Hw. cbv zeta.
  pose proof (biggest_of_max _ (wf_zIndexes_positive _ Hwf)) as Hmax.
  assert (Hne : String.eqb (id w) "" = false).
  { apply String.eqb_neq. pose proof (wf_nonempty _ Hwf) as H.
    unfold ids_nonempty in H. rewrite Forall_forall in H. by apply H. }
  destruct (isMinimalize w).
  - rewrite click_minimized. unfold raised. rewrite Hne.
    rewrite !windows_touch. cbn. split; [done|]. split.
    + rewrite omap_touch. fold (windows s).
      rewrite <- list_fmap_compose, biggestZIndex_windows, Hmax.
      apply list_fmap_ext. intros _ a _. cbn. unfold upd_if, has_id. cbn.
      destruct (String.eqb (id a) (id w)) eqn:E; cbn; by rewrite E.
    + intros [->|Hnf]; [done|]. destruct sched; [done|].
      destruct (focusedWindowId s) as [j|]; [|done]. cbn.
      destruct (String.eqb (id w) j) eqn:E; [|done].
      apply String.eqb_eq in E. by subst j.
  - destruct (strict_eq (id w) (focusedWindowId s)) eqn:Hf.
    + rewrite click_focused by done. by rewrite windows_touch.
    + rewrite click_other by done.
      rewrite (windows_focus _ _ _ (wf_nonempty _ Hwf)), Hmax.
      by rewrite step_focus.
Qed.

(** C9.  The code departs from the stated first branch on a window that is
    both minimized and focused, the state [openApp], [setIsMinimalize(id,
    true)], [focus(id)] lead to.  The click calls [setIsMinimalize(id,
    false)], which only queues the updater of lines 126-137, then
    [handleSetFocusedWindowId(id)], which queues [setFocusedWindowId(id)] at
    line 102.  When React renders and runs the queued updater, line 131
    finds [id === focusedWindowId] and line 132 dispatches
    [setFocusedWindowId(null)] behind the value of line 102: the window is
    un-minimized and raised to the front, and nothing is focused, where the
    handler's last call meant to focus it.  Had React run the updater during
    the dispatch, the same windows would result and the window would be
    focused. *)
Theorem gesture_unminimize_focused_window :
  valid Deferred initial minimize_then_focus ∧
  id <$> windows minimized_focused = [uuid1] ∧
  isMinimalize <$> windows minimized_focused = [true] ∧
  focusedWindowId minimized_focused = Some uuid1 ∧
  isMinimalize <$> windows (click Deferred minimized_focused uuid1 true)
    = [false] ∧
  zIndexes (click Deferred minimized_focused uuid1 true) = [3] ∧
  focusedWindowId (click Deferred minimized_focused uuid1 true) = None ∧
  focusedWindowId (click Deferred minimized_focused uuid1 true) ≠ Some uuid1 ∧
  windows (click Eager minimized_focused uuid1 true) =
    windows (click Deferred minimized_focused uuid1 true) ∧
  focusedWindowId (click Eager minimized_focused uuid1 true) = Some uuid1.
Proof. split; [cbn; by repeat split|]. by repeat split. Qed.

(** ** C10: the read accessor *)

(** C10.  Outside of every provider [useApps] throws an error with the
    message 'useApps has to be used within <AppsContext.Provider>' and
    returns nothing; inside a provider it returns the value of the nearest
    one and does not throw. *)
Theorem useApps_outside_provider :
  useApps [] = Throws "useApps has to be used within <AppsContext.Provider>" ∧
  (∀ a, useApps [] ≠ Returns a) ∧
  ∀ s outer, useApps (value s :: outer) = Returns (value s).
Proof. by repeat split. Qed.

(** * Further properties of the code *)

(** ** The store along runs *)

Lemma touch_identity g apps h :
  (∀ a, identity (g a) = identity a) →
  identity <$> touch g apps h = identity <$> h.
Proof.
  intros Hg. apply list_eq. intros l.
  rewrite !list_lookup_fmap, touch_lookup.
  destruct (h !! l) as [a|]; [|done]. cbn. by case_bool_decide; rewrite ?Hg.
Qed.

Lemma upd_if_identity c f :
  (∀ a, identity (f a) = identity a) →
  ∀ a, identity (upd_if c f a) = identity a.
Proof. intros Hf a. unfold upd_if. by destruct (c a). Qed.

Lemma raised_identity i b apps h :
  identity <$> raised i b apps h = identity <$> h.
Proof.
  unfold raised. destruct i as [i|]; [|done].
  destruct (String.eqb i ""); [done|].
  apply touch_identity, upd_if_identity. done.
Qed.

Lemma step_identity_prefix sched s a :
  identity <$> heap s `prefix_of` identity <$> heap (step sched s a).
Proof.
  destruct a as [t uuid|i| |i v|i v|i].
  - rewrite step_openApp. cbv zeta. cbn -[raised biggestZIndex].
    rewrite raised_identity, fmap_app. by eexists.
  - by rewrite step_closeApp.
  - by rewrite step_closeAllApps.
  - rewrite step_setIsMinimalize. cbn.
    rewrite touch_identity; [done|]. by apply upd_if_identity.
  - rewrite step_setIsFullscreen. cbn.
    rewrite touch_identity; [done|]. by apply upd_if_identity.
  - rewrite step_focus. cbn -[raised biggestZIndex].
    by rewrite raised_identity.
Qed.

Lemma click_identity sched s i isMin :
  identity <$> heap (click sched s i isMin) = identity <$> heap s.
Proof.
  destruct isMin.
  - rewrite click_minimized. cbn -[raised biggestZIndex].
    rewrite raised_identity, touch_identity; [done|]. by apply upd_if_identity.
  - destruct (strict_eq i (focusedWindowId s)) eqn:Hf.
    + rewrite click_focused by done. cbn.
      rewrite touch_identity; [done|]. by apply upd_if_identity.
    + rewrite click_other, step_focus by done. cbn -[raised biggestZIndex].
      by rewrite raised_identity.
Qed.

(** X5.  Along every run of actions, from any state, the store only grows
    at its end and the identifier, type, icon, display name and minimum
    size of every object already in it stay what they were; the taskbar
    gesture leaves them as they are for all objects. *)
Theorem identity_immutable sched s tr i isMin :
  identity <$> heap s `prefix_of` identity <$> heap (run sched s tr) ∧
  identity <$> heap (click sched s i isMin) = identity <$> heap s.
Proof.
  split; [|apply click_identity].
  revert s. induction tr as [|a tr IH]; intros s; [done|].
  cbn. etrans; [apply (step_identity_prefix sched s a)|apply IH].
Qed.

(** ** [setIsFullscreen] *)

(** X2.  In any state [setIsFullscreen(id, value)] sets the fullscreen flag
    of the windows carrying [id] and changes nothing else: the array, the
    focus, every [zIndex] and every minimize flag stay as they were. *)
Theorem setIsFullscreen_effect sched s i v :
  let s' := step sched s (SetIsFullscreen i v) in
  windows s' =
    (λ w, if String.eqb (id w) i then set_isFullscreen v w else w)
      <$> windows s ∧
  openedApps s' = openedApps s ∧
  focusedWindowId s' = focusedWindowId s ∧
  zIndexes s' = zIndexes s ∧
  isMinimalize <$> windows s' = isMinimalize <$> windows s.
Proof.
  cbv zeta. unfold zIndexes. rewrite windows_setIsFullscreen.
  rewrite !fmap_upd_if_proj by done. by rewrite step_setIsFullscreen.
Qed.

(** ** Repeating an action *)

Lemma touch_idem g apps h :
  (∀ a, g (g a) = g a) → touch g apps (touch g apps h) = touch g apps h.
Proof.
  intros Hg. apply list_eq. intros l. rewrite !touch_lookup.
  destruct (h !! l) as [a|]; [|done]. cbn.
  case_bool_decide; [by rewrite Hg|done].
Qed.

Lemma upd_if_idem c f :
  (∀ a, c (f a) = c a) → (∀ a, f (f a) = f a) →
  ∀ a, upd_if c f (upd_if c f a) = upd_if c f a.
Proof.
  intros Hc Hf a. unfold upd_if. destruct (c a) eqn:E; [|by rewrite E].
  by rewrite Hc, E, Hf.
Qed.

Lemma filter_idem {A} (f : A → bool) (l : list A) :
  List.filter f (List.filter f l) = List.filter f l.
Proof.
  induction l as [|x l IH]; [done|]. cbn.
  destruct (f x) eqn:E; [|done]. cbn. by rewrite E, IH.
Qed.

(** X7.  Closing, closing all, and setting the minimize or the fullscreen
    flag are idempotent: applied a second time with the same arguments, the
    action changes nothing, in any state.  ([openApp] and [focus] are not:
    each raises a [zIndex] again.) *)
Theorem repeat_changes_nothing sched s a :
  repeatable a →
  step sched (step sched s a) a = step sched s a.
Proof.
  intros Hrep. destruct a as [t uuid|i| |i v|i v|i]; try done.
  - rewrite (step_closeApp sched (step sched s (CloseApp i))).
    rewrite step_closeApp. cbn. by rewrite filter_idem.
  - by rewrite !step_closeAllApps.
  - rewrite (step_setIsMinimalize sched (step sched s (SetIsMinimalize i v))).
    rewrite opened_setIsMinimalize, step_setIsMinimalize. cbn -[touch].
    rewrite touch_idem by (by apply upd_if_idem).
    f_equal.
    destruct (strict_eq i (focusedWindowId s) && opened i s) eqn:E; [done|].
    by rewrite E.
  - rewrite (step_setIsFullscreen sched (step sched s (SetIsFullscreen i v))).
    rewrite step_setIsFullscreen. cbn -[touch].
    by rewrite touch_idem by (by apply upd_if_idem).
Qed.

Lemma repeat_changes_nothing_witness :
  repeatable (SetIsMinimalize uuid1 true) ∧
  focusedWindowId (step Deferred two_windows (SetIsMinimalize uuid1 true))
    = Some uuid2 ∧
  step Deferred (step Deferred two_windows (SetIsMinimalize uuid1 true))
       (SetIsMinimalize uuid1 true)
  = step Deferred two_windows (SetIsMinimalize uuid1 true).
Proof.
  split; [exact I|]. split; [reflexivity|].
  exact (repeat_changes_nothing Deferred two_windows
           (SetIsMinimalize uuid1 true) I).
Defined.

(** ** Scheduling *)

Lemma click_sched_same sched sched' s i isMin :
  isMin = false ∨ strict_eq i (focusedWindowId s) && opened i s = false →
  click sched s i isMin = click sched' s i isMin.
Proof.
  intros Hcase. destruct isMin.
  - destruct Hcase as [?|Hcase]; [done|].
    rewrite !click_minimized, Hcase. by destruct sched, sched'.
  - destruct (strict_eq i (focusedWindowId s)) eqn:Hf.
    + by rewrite !click_focused.
    + rewrite !click_other by done. apply step_sched_irrelevant.
Qed.

(** X9.  The state a run of actions ends in does not depend on whether
    React runs an event's first updater during the dispatch or at the
    render; the same holds for the taskbar gesture unless it is applied, as
    minimized, to a window that is open and focused. *)
Theorem scheduling_irrelevant sched sched' s tr i isMin :
  run sched s tr = run sched' s tr ∧
  (isMin = false ∨ strict_eq i (focusedWindowId s) && opened i s = false →
   click sched s i isMin = click sched' s i isMin).
Proof.
  split; [|apply click_sched_same].
  revert s. induction tr as [|a tr IH]; intros s; [done|].
  cbn. rewrite (step_sched_irrelevant sched sched'). apply IH.
Qed.

Lemma scheduling_irrelevant_witness :
  strict_eq uuid1 (focusedWindowId two_windows) && opened uuid1 two_windows
    = false ∧
  run Eager two_windows [CloseApp uuid2] = run Deferred two_windows [CloseApp uuid2] ∧
  click Eager two_windows uuid1 true = click Deferred two_windows uuid1 true.
Proof.
  split; [reflexivity|].
  destruct (scheduling_irrelevant Eager Deferred two_windows [CloseApp uuid2]
              uuid1 true) as [H1 H2].
  split; [exact H1|]. apply H2. right. reflexivity.
Defined.

(** ** [openApp] *)

(** X1.  In a reachable state, [openApp(type)] with a fresh identifier
    appends one reference to a new object at the end of the array and
    leaves every window that was open as it was; the new window has the
    factory's data, a [zIndex] one above the maximum, is strictly above
    every other window, and is the focused one. *)
Theorem openApp_effect sched s t uuid :
  reachable sched s → fresh_for s (OpenApp t uuid) →
  let s' := step sched s (OpenApp t uuid) in
  let new := newWindow t uuid (max_zIndex (zIndexes s) + 1) in
  openedApps s' = openedApps s ++ [length (heap s)] ∧
  length (heap s') = S (length (heap s)) ∧
  windows s' = windows s ++ [new] ∧
  on_top s' new ∧
  focusedWindowId s' = Some uuid.
Proof.
  intros Hwf%reachable_wf Hfresh. cbv zeta.
  pose proof (biggest_of_max _ (wf_zIndexes_positive _ Hwf)) as Hmax.
  pose proof (windows_openApp sched s t uuid (wf_refs _ Hwf) Hfresh) as Hw.
  rewrite Hmax in Hw.
  split; [by rewrite step_openApp|].
  split.
  { rewrite step_openApp. cbv zeta. cbn -[raised biggestZIndex].
    rewrite raised_length, length_app. cbn. lia. }
  split; [done|]. split; [|apply focus_openApp].
  intros v Hv Hne. rewrite Hw in Hv.
  apply elem_of_app in Hv as [Hv|Hv%list_elem_of_singleton]; [|done].
  pose proof (window_le_biggest s v Hv). cbn. lia.
Qed.

Lemma openApp_effect_witness :
  reachable Deferred one_window ∧
  fresh_for one_window (OpenApp tasks uuid2) ∧
  zIndexes (step Deferred one_window (OpenApp tasks uuid2)) = [1; 2] ∧
  focusedWindowId (step Deferred one_window (OpenApp tasks uuid2)) = Some uuid2.
Proof.
  assert (Hr : reachable Deferred one_window).
  { exists open_one. split; [|done]. cbn. by repeat split. }
  assert (Hf : fresh_for one_window (OpenApp tasks uuid2)) by (by split).
  split; [exact Hr|]. split; [exact Hf|].
  destruct (openApp_effect Deferred one_window tasks uuid2 Hr Hf)
    as (_ & _ & Hw & _ & Hfoc).
  split; [|exact Hfoc]. unfold zIndexes. rewrite Hw. reflexivity.
Defined.

(** ** Opening and closing again *)

Lemma windows_lookup s k :
  Forall (λ l, (l < length (heap s))%nat) (openedApps s) →
  windows s !! k = openedApps s !! k ≫= λ l, heap s !! l.
Proof.
  unfold windows. intros Hrefs. revert k.
  induction Hrefs as [|x apps Hx _ IH]; intros k; [done|].
  cbn. destruct (lookup_lt_is_Some_2 _ _ Hx) as [a Ha]. rewrite Ha.
  destruct k as [|k]; cbn; [done|apply IH].
Qed.

Lemma in_windows s l a :
  l ∈ openedApps s → heap s !! l = Some a → a ∈ windows s.
Proof. intros Hl Ha. apply list_elem_of_omap. by exists l. Qed.

Lemma filter_all {A} (f : A → bool) (l : list A) :
  Forall (λ a, f a = true) l → List.filter f l = l.
Proof. induction 1 as [|a l Ha _ IH]; [done|]. cbn. by rewrite Ha, IH. Qed.

(** X8.  In a reachable state, opening a window and closing it again gives
    back the array and the windows there were, untouched; the focus is not
    given back: it stays on the identifier of the window that is gone. *)
Theorem open_then_close sched s t uuid :
  reachable sched s → fresh_for s (OpenApp t uuid) →
  let s' := run sched s [OpenApp t uuid; CloseApp uuid] in
  openedApps s' = openedApps s ∧
  windows s' = windows s ∧
  focusedWindowId s' = Some uuid ∧
  opened uuid s' = false.
Proof.
  intros Hwf%reachable_wf Hfresh. cbv zeta. cbn [run foldl].
  pose proof (windows_openApp sched s t uuid (wf_refs _ Hwf) Hfresh) as Hw1.
  pose proof (wf_step sched s _ Hwf Hfresh) as Hwf1.
  set (s1 := step sched s (OpenApp t uuid)) in *.
  pose proof (windows_closeApp sched s1 uuid) as Hw2.
  assert (Hold : Forall (λ a, has_id uuid a = false) (windows s))
    by (apply opened_false; apply Hfresh).
  assert (Hws : windows (step sched s1 (CloseApp uuid)) = windows s).
  { rewrite Hw2, Hw1, List.filter_app. cbn. rewrite String.eqb_refl. cbn.
    rewrite app_nil_r. apply filter_all.
    eapply Forall_impl; [exact Hold|]. intros a Ha. cbn. by rewrite Ha. }
  assert (Hfoc : focusedWindowId (step sched s1 (CloseApp uuid)) = Some uuid).
  { rewrite step_closeApp. cbn. apply focus_openApp. }
  split; [|split; [done|split; [done|]]].
  - rewrite step_closeApp. cbn.
    assert (Happs : openedApps s1 = openedApps s ++ [length (heap s)])
      by (unfold s1; by rewrite step_openApp).
    rewrite Happs, List.filter_app.
    assert (Hnew : heap s1 !! length (heap s)
                   = Some (newWindow t uuid (biggest_of (zIndexes s) + 1))).
    { pose proof (windows_lookup s1 (length (openedApps s)) (wf_refs _ Hwf1))
        as Hl.
      rewrite Hw1, Happs in Hl.
      rewrite <- (windows_length s (wf_refs _ Hwf)) in Hl at 1.
      rewrite !list_lookup_middle in Hl by done. by cbn in Hl. }
    cbn. unfold keeps at 2. rewrite Hnew. cbn. rewrite String.eqb_refl. cbn.
    rewrite app_nil_r. apply filter_all, Forall_forall. intros l Hl.
    unfold keeps. destruct (heap s1 !! l) as [a|] eqn:Ea; [|done].
    assert (Ha : a ∈ windows s1).
    { apply (in_windows s1 l); [|done]. rewrite Happs. apply elem_of_app. by left. }
    rewrite Hw1 in Ha.
    apply elem_of_app in Ha as [Ha|Ha%list_elem_of_singleton].
    + rewrite Forall_forall in Hold. specialize (Hold a Ha).
      unfold has_id in Hold. by rewrite Hold.
    + (* the new object is reached through the new reference only *)
      exfalso. subst a.
      pose proof (wf_refs _ Hwf) as Hrefs.
      rewrite Forall_forall in Hrefs. specialize (Hrefs l Hl). cbn in Hrefs.
      pose proof (step_identity_prefix sched s (OpenApp t uuid)) as [k Hk].
      fold s1 in Hk.
      assert (Hid : (identity <$> heap s1) !! l = (identity <$> heap s) !! l)
        by (rewrite Hk; by rewrite lookup_app_l by (by rewrite length_fmap)).
      rewrite !list_lookup_fmap, Ea in Hid.
      destruct (heap s !! l) as [a0|] eqn:E0; [|done].
      cbn in Hid. injection Hid as Hid _ _ _ _.
      assert (Ha0 : a0 ∈ windows s) by (by apply (in_windows s l)).
      rewrite Forall_forall in Hold. specialize (Hold a0 Ha0).
      unfold has_id in Hold. rewrite <- Hid in Hold. cbn in Hold.
      by rewrite String.eqb_refl in Hold.
  - apply opened_false. rewrite Hws. exact Hold.
Qed.

Lemma open_then_close_witness :
  reachable Deferred one_window ∧
  fresh_for one_window (OpenApp tasks uuid2) ∧
  openedApps (run Deferred one_window [OpenApp tasks uuid2; CloseApp uuid2])
    = openedApps one_window ∧
  focusedWindowId (run Deferred one_window [OpenApp tasks uuid2; CloseApp uuid2])
    = Some uuid2.
Proof.
  assert (Hr : reachable Deferred one_window).
  { exists open_one. split; [|done]. cbn. by repeat split. }
  assert (Hf : fresh_for one_window (OpenApp tasks uuid2)) by (by split).
  split; [exact Hr|]. split; [exact Hf|].
  destruct (open_then_close Deferred one_window tasks uuid2 Hr Hf)
    as (H1 & _ & H3 & _).
  split; [exact H1|exact H3].
Defined.

(** ** The focused window is in front *)

Lemma NoDup_fmap_eq {A B} (f : A → B) (l : list A) x y :
  NoDup (f <$> l) → x ∈ l → y ∈ l → f x = f y → x = y.
Proof.
  induction l as [|a l IH]; cbn; [by intros _ ?%elem_of_nil|].
  rewrite NoDup_cons. intros [Ha Hl] Hx Hy Hf.
  apply elem_of_cons in Hx as [->|Hx], Hy as [->|Hy]; [done| | |by apply IH].
  - exfalso. apply Ha. rewrite Hf. by apply list_elem_of_fmap_2.
  - exfalso. apply Ha. rewrite <- Hf. by apply list_elem_of_fmap_2.
Qed.

Lemma in_filter {A} (f : A → bool) (l : list A) x :
  x ∈ List.filter f l → x ∈ l.
Proof.
  intros H. apply list_elem_of_In in H. apply filter_In in H as [H _].
  by apply list_elem_of_In.
Qed.

Lemma focus_highest_step sched s a :
  wf s → fresh_for s a → focus_highest s → focus_highest (step sched s a).
Proof.
  intros Hwf Hfresh Hinv w v.
  destruct a as [t uuid|i| |i v0|i v0|i].
  - rewrite (windows_openApp _ _ _ _ (wf_refs _ Hwf) Hfresh), focus_openApp.
    intros Hw [= Hid] Hv.
    assert (w = newWindow t uuid (biggest_of (zIndexes s) + 1)) as ->.
    { apply elem_of_app in Hw as [Hw|Hw%list_elem_of_singleton]; [|done].
      destruct Hfresh as [_ Hfresh]. apply opened_false in Hfresh.
      rewrite Forall_forall in Hfresh. specialize (Hfresh _ Hw).
      unfold has_id in Hfresh. rewrite <- Hid, String.eqb_refl in Hfresh. done. }
    apply elem_of_app in Hv as [Hv|Hv%list_elem_of_singleton]; [|by subst v].
    pose proof (window_le_biggest s v Hv). cbn. lia.
  - rewrite windows_closeApp, step_closeApp. cbn.
    intros Hw%in_filter Hf Hv%in_filter. by apply Hinv.
  - rewrite step_closeAllApps. by intros ?%elem_of_nil.
  - rewrite windows_setIsMinimalize, step_setIsMinimalize. cbn.
    intros (w0 & -> & Hw0)%list_elem_of_fmap Hf (v1 & -> & Hv1)%list_elem_of_fmap.
    replace (zIndex (upd_if _ _ v1)) with (zIndex v1)
      by (unfold upd_if; by destruct (has_id i v1)).
    replace (zIndex (upd_if _ _ w0)) with (zIndex w0)
      by (unfold upd_if; by destruct (has_id i w0)).
    replace (id (upd_if _ _ w0)) with (id w0) in Hf
      by (unfold upd_if; by destruct (has_id i w0)).
    apply Hinv; [done| |done].
    by destruct (strict_eq i (focusedWindowId s) && opened i s).
  - rewrite windows_setIsFullscreen, step_setIsFullscreen. cbn.
    intros (w0 & -> & Hw0)%list_elem_of_fmap Hf (v1 & -> & Hv1)%list_elem_of_fmap.
    replace (zIndex (upd_if _ _ v1)) with (zIndex v1)
      by (unfold upd_if; by destruct (has_id i v1)).
    replace (zIndex (upd_if _ _ w0)) with (zIndex w0)
      by (unfold upd_if; by destruct (has_id i w0)).
    replace (id (upd_if _ _ w0)) with (id w0) in Hf
      by (unfold upd_if; by destruct (has_id i w0)).
    by apply Hinv.
  - rewrite (windows_focus _ _ _ (wf_nonempty _ Hwf)), step_focus. cbn.
    intros (w0 & -> & Hw0)%list_elem_of_fmap Hf (v1 & -> & Hv1)%list_elem_of_fmap.
    replace (id (upd_if _ _ w0)) with (id w0) in Hf
      by (unfold upd_if; by destruct (strict_eq (id w0) i)).
    subst i. pose proof (window_le_biggest s v1 Hv1) as Hle.
    unfold upd_if. cbn. rewrite String.eqb_refl. cbn.
    destruct (String.eqb (id v1) (id w0)); cbn; lia.
Qed.

(** X4.  In every reachable state the focused window, when it is open, is
    the front window: its [zIndex] is strictly above that of every other
    open window. *)
Theorem focused_on_top sched s w :
  reachable sched s → w ∈ windows s → focusedWindowId s = Some (id w) →
  on_top s w.
Proof.
  intros (tr & Hv & ->) Hw Hf v Hin Hne.
  assert (Hgen : ∀ s, wf s → valid sched s tr → focus_highest s →
                   wf (run sched s tr) ∧ focus_highest (run sched s tr)).
  { clear. induction tr as [|a tr IH]; intros s Hwf Hv Hinv; [done|].
    destruct Hv as [Ha Hv]. cbn.
    apply IH; [by apply wf_step|done|by apply focus_highest_step]. }
  destruct (Hgen initial wf_initial Hv) as [Hwf Hhigh].
  { by intros ? ? ?%elem_of_nil. }
  pose proof (Hhigh w v Hw Hf Hin) as Hle.
  destruct (decide (zIndex v = zIndex w)) as [Heq|]; [|lia].
  exfalso. apply Hne.
  by apply (NoDup_fmap_eq zIndex (windows (run sched initial tr)));
    [apply (wf_zs _ Hwf)| | |].
Qed.

Lemma focused_on_top_witness :
  reachable Deferred two_windows ∧
  windows two_windows =
    [newWindow calculator uuid1 1; newWindow tasks uuid2 2] ∧
  focusedWindowId two_windows = Some uuid2 ∧
  on_top two_windows (newWindow tasks uuid2 2).
Proof.
  assert (Hr : reachable Deferred two_windows).
  { exists open_two. split; [|reflexivity]. cbn. by repeat split. }
  split; [exact Hr|]. split; [reflexivity|]. split; [reflexivity|].
  apply (focused_on_top Deferred two_windows _ Hr); [|reflexivity].
  apply list_elem_of_further, list_elem_of_here.
Defined.

(** ** A window's index over time *)

Lemma step_zIndex_mono sched s a l w :
  wf s → fresh_for s a → heap s !! l = Some w →
  ∃ w', heap (step sched s a) !! l = Some w' ∧ zIndex w ≤ zIndex w'.
Proof.
  intros Hwf Hfresh Hl.
  assert (Hraise : ∀ i b, b = biggestZIndex (heap s) (openedApps s) →
            ∃ w', touch (upd_if (has_id i) (set_zIndex (b + 1)))
                    (openedApps s) (heap s) !! l = Some w'
                  ∧ zIndex w ≤ zIndex w').
  { intros i b ->. rewrite touch_lookup, Hl. cbn.
    case_bool_decide as Hin; [|exists w; split; [done|lia]].
    eexists. split; [reflexivity|].
    pose proof (window_le_biggest s w (in_windows s l w Hin Hl)) as Hle.
    rewrite biggestZIndex_windows.
    unfold upd_if. destruct (has_id i w); cbn; lia. }
  destruct a as [t uuid|i| |i v|i v|i].
  - rewrite step_openApp. cbv zeta. cbn -[raised biggestZIndex].
    destruct Hfresh as [Hne Hfresh]. unfold raised.
    apply String.eqb_neq in Hne. rewrite Hne.
    rewrite touch_lookup, lookup_app_l by (by eapply lookup_lt_Some).
    rewrite Hl. cbn. case_bool_decide as Hin; [|exists w; split; [done|lia]].
    exists w. split; [|lia]. f_equal.
    apply elem_of_app in Hin as [Hin|Hin%list_elem_of_singleton].
    + apply opened_false in Hfresh. rewrite Forall_forall in Hfresh.
      unfold upd_if. by rewrite (Hfresh w (in_windows s l w Hin Hl)).
    + apply lookup_lt_Some in Hl. lia.
  - rewrite step_closeApp. exists w. split; [done|lia].
  - rewrite step_closeAllApps. exists w. split; [done|lia].
  - rewrite step_setIsMinimalize. cbn. rewrite touch_lookup, Hl. cbn.
    eexists. split; [reflexivity|].
    case_bool_decide; [|lia]. unfold upd_if. destruct (has_id i w); cbn; lia.
  - rewrite step_setIsFullscreen. cbn. rewrite touch_lookup, Hl. cbn.
    eexists. split; [reflexivity|].
    case_bool_decide; [|lia]. unfold upd_if. destruct (has_id i w); cbn; lia.
  - rewrite step_focus. cbn -[raised biggestZIndex]. unfold raised.
    destruct i as [i|]; [|exists w; split; [done|lia]].
    destruct (String.eqb i ""); [exists w; split; [done|lia]|].
    by apply Hraise.
Qed.

(** X6.  Along every run from a reachable state no object leaves the store
    and no [zIndex] ever goes down: an object found behind a reference
    before the run is found behind it after, with a [zIndex] at least as
    big. *)
Theorem zIndex_never_decreases sched s tr l w :
  reachable sched s → valid sched s tr → heap s !! l = Some w →
  ∃ w', heap (run sched s tr) !! l = Some w' ∧ zIndex w ≤ zIndex w'.
Proof.
  intros Hwf%reachable_wf. revert s w Hwf.
  induction tr as [|a tr IH]; intros s w Hwf Hv Hl.
  - exists w. split; [done|lia].
  - destruct Hv as [Ha Hv]. cbn.
    destruct (step_zIndex_mono sched s a l w Hwf Ha Hl) as (w1 & Hl1 & Hle1).
    destruct (IH _ w1 (wf_step sched s a Hwf Ha) Hv Hl1) as (w' & Hl' & Hle').
    exists w'. split; [done|lia].
Qed.

Lemma zIndex_never_decreases_witness :
  reachable Deferred two_windows ∧
  valid Deferred two_windows [Focus (Some uuid1); CloseApp uuid1] ∧
  heap two_windows !! 0%nat = Some (newWindow calculator uuid1 1) ∧
  ∃ w', heap (run Deferred two_windows [Focus (Some uuid1); CloseApp uuid1])
          !! 0%nat = Some w' ∧ 1 ≤ zIndex w'.
Proof.
  assert (Hr : reachable Deferred two_windows).
  { exists open_two. split; [|reflexivity]. cbn. by repeat split. }
  assert (Hv : valid Deferred two_windows [Focus (Some uuid1); CloseApp uuid1])
    by (by cbn).
  split; [exact Hr|]. split; [exact Hv|]. split; [reflexivity|].
  exact (zIndex_never_decreases Deferred two_windows _ 0%nat _ Hr Hv eq_refl).
Defined.

(** ** Minimizing from the taskbar and restoring *)

Lemma windows_touch2 g1 g2 s focus :
  windows {| heap := touch g2 (openedApps s) (touch g1 (openedApps s) (heap s));
             openedApps := openedApps s; focusedWindowId := focus |}
  = g2 <$> (g1 <$> windows s).
Proof. rewrite windows_touch, omap_touch. done. Qed.

Lemma windows_click_minimized sched s i :
  i ≠ "" →
  windows (click sched s i true) =
  upd_if (has_id i) (set_zIndex (biggest_of (zIndexes s) + 1))
    <$> (upd_if (has_id i) (set_isMinimalize false) <$> windows s).
Proof.
  intros Hne%String.eqb_neq. rewrite click_minimized. unfold raised.
  rewrite Hne, biggestZIndex_windows. apply windows_touch2.
Qed.

(** X10.  In a reachable state, two clicks on the taskbar entry of the
    focused, not minimized window first minimize it and clear the focus,
    then bring it back: after the second click the windows are those a
    plain [focus(id)] would have given, the window is focused again, and
    the array is what it was, under either scheduling. *)
Theorem gesture_toggle sched s w :
  reachable sched s → w ∈ windows s →
  isMinimalize w = false → focusedWindowId s = Some (id w) →
  let s1 := click sched s (id w) false in
  let s2 := click sched s1 (id w) true in
  set_isMinimalize true w ∈ windows s1 ∧
  focusedWindowId s1 = None ∧
  windows s2 = windows (step sched s (Focus (Some (id w)))) ∧
  focusedWindowId s2 = Some (id w) ∧
  openedApps s2 = openedApps s.
Proof.
  intros Hwf%reachable_wf Hw Hmin Hfoc. cbv zeta.
  assert (Hne : id w ≠ "").
  { pose proof (wf_nonempty _ Hwf) as H. unfold ids_nonempty in H.
    rewrite Forall_forall in H. by apply H. }
  assert (Hsame : ∀ a, a ∈ windows s → has_id (id w) a = true → a = w).
  { intros a Ha E. apply String.eqb_eq in E.
    by apply (NoDup_fmap_eq id (windows s)); [apply (wf_ids _ Hwf)| | |]. }
  assert (Hf : strict_eq (id w) (focusedWindowId s) = true)
    by (rewrite Hfoc; cbn; apply String.eqb_refl).
  assert (H1 : click sched s (id w) false =
               {| heap := touch (upd_if (has_id (id w)) (set_isMinimalize true))
                            (openedApps s) (heap s);
                  openedApps := openedApps s; focusedWindowId := None |})
    by (by apply click_focused).
  assert (Hw1 : windows (click sched s (id w) false) =
                upd_if (has_id (id w)) (set_isMinimalize true) <$> windows s)
    by (rewrite H1; apply windows_touch).
  split.
  { rewrite Hw1. apply list_elem_of_fmap. exists w. split; [|done].
    unfold upd_if, has_id. by rewrite String.eqb_refl. }
  split; [by rewrite H1|].
  assert (Hz1 : zIndexes (click sched s (id w) false) = zIndexes s).
  { unfold zIndexes. rewrite Hw1. by apply fmap_upd_if_proj. }
  split; [|split].
  - rewrite (windows_click_minimized sched _ (id w) Hne), Hz1, Hw1.
    rewrite (windows_focus _ _ _ (wf_nonempty _ Hwf)).
    rewrite <- !list_fmap_compose. apply list_fmap_ext.
    intros k a Hk. cbn. unfold upd_if.
    destruct (has_id (id w) a) eqn:E.
    + assert (a = w) as -> by (apply Hsame; [by eapply list_elem_of_lookup_2|done]).
      cbn. unfold has_id in *. cbn. rewrite !String.eqb_refl. cbn.
      generalize (biggest_of (zIndexes s) + 1). intros z.
      clear -Hmin. destruct w. cbn in *. by rewrite Hmin.
    + cbn. rewrite !E. unfold has_id in E. by rewrite E.
  - rewrite click_minimized. cbn -[click]. rewrite H1. cbn.
    by destruct sched.
  - rewrite click_minimized. cbn -[click]. by rewrite H1.
Qed.

Lemma gesture_toggle_witness :
  reachable Deferred two_windows ∧
  newWindow tasks uuid2 2 ∈ windows two_windows ∧
  focusedWindowId two_windows = Some uuid2 ∧
  zIndexes (click Deferred (click Deferred two_windows uuid2 false) uuid2 true)
    = [1; 3] ∧
  focusedWindowId (click Deferred (click Deferred two_windows uuid2 false) uuid2 true)
    = Some uuid2.
Proof.
  assert (Hr : reachable Deferred two_windows).
  { exists open_two. split; [|reflexivity]. cbn. by repeat split. }
  assert (Hw : newWindow tasks uuid2 2 ∈ windows two_windows)
    by apply list_elem_of_further, list_elem_of_here.
  split; [exact Hr|]. split; [exact Hw|]. split; [reflexivity|].
  destruct (gesture_toggle Deferred two_windows _ Hr Hw eq_refl eq_refl)
    as (_ & _ & Hws & Hf & _).
  split; [|exact Hf]. unfold zIndexes.
  cbn [id newWindow] in Hws. rewrite Hws. reflexivity.
Defined.

(** ** What is on the screen *)

Lemma omap_fmap_lookup {B} (f : WindowApp → B) (h : list WindowApp)
    (apps : list loc) :
  omap (λ app, f <$> h !! app) apps = f <$> omap (λ app, h !! app) apps.
Proof.
  induction apps as [|x apps IH]; [done|].
  cbn. rewrite IH. by destruct (h !! x).
Qed.

Lemma taskbar_windows sched s :
  taskbar sched s = taskbarEntry sched s <$> windows s.
Proof. apply omap_fmap_lookup. Qed.

Lemma pulpit_proj {B} (p : Frame → B) (q : WindowApp → B) s :
  (∀ app a, p (renderApp s app a) = q a) →
  p <$> pulpit s = q <$> windows s.
Proof.
  intros Hpq. unfold pulpit, windows.
  induction (openedApps s) as [|x apps IH]; [done|].
  cbn. destruct (heap s !! x) as [a|]; cbn; [|done]. by rewrite IH, Hpq.
Qed.

Lemma pulpit_refs s :
  Forall (λ l, (l < length (heap s))%nat) (openedApps s) →
  fr_windowApp <$> pulpit s = openedApps s.
Proof.
  unfold pulpit. induction 1 as [|x apps Hx _ IH]; [done|].
  cbn. destruct (lookup_lt_is_Some_2 _ _ Hx) as [a Ha]. rewrite Ha. cbn.
  rewrite IH. f_equal. unfold renderApp. by destruct (type a).
Qed.

Lemma filter_true_fmap {A} (p : A → bool) (l : list A) :
  length (List.filter (λ b : bool, b) (p <$> l)) = length (List.filter p l).
Proof.
  induction l as [|x l IH]; [done|]. cbn. destruct (p x); cbn; by rewrite IH.
Qed.

(** X11.  In every reachable state the desktop area and the taskbar show
    the open windows one for one and in array order: each frame holds the
    reference of its window, the taskbar has an entry for every open window
    (minimized or not), frame and entry carry the window's identifier as
    key and the same focus mark, the [Calculator] inside a frame gets the
    frame's mark, the keys are pairwise distinct, and at most one frame is
    marked focused. *)
Theorem screen_shows_windows sched s :
  reachable sched s →
  fr_windowApp <$> pulpit s = openedApps s ∧
  length (taskbar sched s) = length (openedApps s) ∧
  fr_key <$> pulpit s = id <$> windows s ∧
  tb_key <$> taskbar sched s = id <$> windows s ∧
  NoDup (fr_key <$> pulpit s) ∧
  fr_isFocused <$> pulpit s = tb_isFocused <$> taskbar sched s ∧
  Forall (λ fr, ∀ b, fr_body fr = Calculator b → b = fr_isFocused fr)
         (pulpit s) ∧
  (length (List.filter fr_isFocused (pulpit s)) ≤ 1)%nat.
Proof.
  intros Hwf%reachable_wf.
  assert (Hkey : fr_key <$> pulpit s = id <$> windows s).
  { apply pulpit_proj. intros app a. unfold renderApp. by destruct (type a). }
  assert (Hfoc : fr_isFocused <$> pulpit s =
                 (λ a, strict_eq (id a) (focusedWindowId s)) <$> windows s).
  { apply pulpit_proj. intros app a. unfold renderApp. by destruct (type a). }
  split; [apply pulpit_refs, (wf_refs _ Hwf)|].
  split.
  { rewrite taskbar_windows, length_fmap. apply windows_length, (wf_refs _ Hwf). }
  split; [done|]. split.
  { rewrite taskbar_windows, <- list_fmap_compose. done. }
  split; [rewrite Hkey; apply (wf_ids _ Hwf)|].
  split.
  { rewrite Hfoc, taskbar_windows, <- list_fmap_compose. done. }
  split.
  { unfold pulpit. apply Forall_forall.
    intros fr (l & _ & Hfr)%list_elem_of_omap.
    destruct (heap s !! l) as [a|]; [|done]. cbn in Hfr.
    injection Hfr as <-. unfold renderApp.
    destruct (type a); cbn; intros b [=]; done. }
  rewrite <- filter_true_fmap, Hfoc, filter_true_fmap.
  destruct (focusedWindowId s) as [i|].
  - apply (NoDup_ids_filter i), (wf_ids _ Hwf).
  - cbn. rewrite filter_none; [cbn; lia|]. by apply Forall_true.
Qed.

Lemma screen_shows_windows_witness :
  reachable Deferred (step Deferred two_windows (SetIsMinimalize uuid1 true)) ∧
  tb_key <$> taskbar Deferred
               (step Deferred two_windows (SetIsMinimalize uuid1 true))
    = [uuid1; uuid2] ∧
  fr_isFocused <$> pulpit (step Deferred two_windows (SetIsMinimalize uuid1 true))
    = [false; true].
Proof.
  assert (Hr : reachable Deferred
                 (step Deferred two_windows (SetIsMinimalize uuid1 true))).
  { exists (open_two ++ [SetIsMinimalize uuid1 true]).
    split; [|reflexivity]. cbn. by repeat split. }
  split; [exact Hr|].
  destruct (screen_shows_windows Deferred _ Hr) as (_ & _ & _ & Hk & _ & _).
  split; [|reflexivity]. rewrite Hk. reflexivity.
Defined.

(** ** The close button of a taskbar entry *)

Lemma filter_delete_at {A} (f : A → bool) (l : list A) k x :
  l !! k = Some x → f x = false →
  (∀ j y, j ≠ k → l !! j = Some y → f y = true) →
  List.filter f l = delete k l.
Proof.
  revert k. induction l as [|a l IH]; intros k Hk Hx Hothers; [done|].
  destruct k as [|k]; cbn in *.
  - injection Hk as ->. rewrite Hx. apply filter_all, Forall_lookup.
    intros j y Hj. by apply (Hothers (S j)).
  - rewrite (Hothers 0%nat a) by done. f_equal.
    apply IH; [done|done|]. intros j y Hne Hj. apply (Hothers (S j)); [lia|done].
Qed.

Lemma taskbar_lookup sched s k entry :
  taskbar sched s !! k = Some entry →
  ∃ a, windows s !! k = Some a ∧ entry = taskbarEntry sched s a.
Proof.
  rewrite taskbar_windows, list_lookup_fmap.
  destruct (windows s !! k) as [a|]; [|done]. intros [= <-]. by exists a.
Qed.

Lemma other_window_other_id s k j a b :
  NoDup (id <$> windows s) →
  windows s !! k = Some a → windows s !! j = Some b → j ≠ k →
  String.eqb (id b) (id a) = false.
Proof.
  intros Hnd Hk Hj Hne. apply String.eqb_neq. intros Heq. apply Hne.
  apply (NoDup_lookup (id <$> windows s) j k (id a)); [done| |].
  - rewrite list_lookup_fmap, Hj. cbn. by rewrite Heq.
  - by rewrite list_lookup_fmap, Hk.
Qed.

(** X12.  In a reachable state, the close button of the [k]-th taskbar
    entry removes exactly the [k]-th window: the array and the list of
    windows lose their [k]-th element, the objects and the focus are
    untouched. *)
Theorem taskbar_close_button sched s k entry :
  reachable sched s → taskbar sched s !! k = Some entry →
  let s' := dispatchEvent (tb_closeApp entry) s in
  openedApps s' = delete k (openedApps s) ∧
  windows s' = delete k (windows s) ∧
  heap s' = heap s ∧
  focusedWindowId s' = focusedWindowId s.
Proof.
  intros Hwf%reachable_wf (a & Hk & ->)%taskbar_lookup. cbv zeta.
  change (dispatchEvent (tb_closeApp (taskbarEntry sched s a)) s)
    with (step sched s (CloseApp (id a))).
  pose proof (windows_lookup s k (wf_refs _ Hwf)) as Hlk. rewrite Hk in Hlk.
  destruct (openedApps s !! k) as [l|] eqn:Hl; [|done]. cbn in Hlk.
  split; [|split; [|by rewrite step_closeApp]].
  - rewrite step_closeApp. cbn.
    apply (filter_delete_at _ _ k l); [done| |].
    + unfold keeps. rewrite <- Hlk. cbn. by rewrite String.eqb_refl.
    + intros j l' Hne Hj. unfold keeps.
      destruct (heap s !! l') as [b|] eqn:Hb; [|done].
      rewrite (other_window_other_id s k j a b); [done|apply (wf_ids _ Hwf)|done| |done].
      by rewrite (windows_lookup s j (wf_refs _ Hwf)), Hj.
  - rewrite windows_closeApp.
    apply (filter_delete_at _ _ k a); [done| |].
    + unfold has_id. by rewrite String.eqb_refl.
    + intros j b Hne Hj. unfold has_id.
      by rewrite (other_window_other_id s k j a b);
        [|apply (wf_ids _ Hwf)|done|done|done].
Qed.

Lemma taskbar_close_button_witness :
  reachable Deferred two_windows ∧
  (∃ entry, taskbar Deferred two_windows !! 0%nat = Some entry ∧
            tb_key entry = uuid1 ∧
            id <$> windows (dispatchEvent (tb_closeApp entry) two_windows)
              = [uuid2]).
Proof.
  assert (Hr : reachable Deferred two_windows).
  { exists open_two. split; [|reflexivity]. cbn. by repeat split. }
  split; [exact Hr|].
  eexists. split; [reflexivity|]. split; [reflexivity|].
  destruct (taskbar_close_button Deferred two_windows 0 _ Hr eq_refl)
    as (_ & Hw & _).
  cbv zeta in Hw. rewrite Hw. reflexivity.
Defined.

(** ** Launcher and taskbar alone *)

Lemma launcher_opens sched s k b :
  launchers sched s !! k = Some b →
  ∃ t, (∀ uuid, dispatchEvent (lb_onClick b uuid) s
                = step sched s (OpenApp t uuid)) ∧
       lb_src b = ap_iconSrc (appProps t).
Proof.
  destruct k as [|[|[|k]]]; intros [= <-].
  - by exists calculator.
  - by exists tasks.
  - by exists other_app.
Qed.

Lemma ui_step_cases sched s e :
  ui_fresh s e →
  (∃ a, fresh_for s a ∧ focus_unminimized s a ∧
        ui_step sched s e = step sched s a) ∨
  (∃ w, w ∈ windows s ∧
        ui_step sched s e = click sched s (id w) (isMinimalize w)) ∨
  ui_step sched s e = s.
Proof.
  intros Hfresh. destruct e as [k uuid|k|k]; cbn [ui_step].
  - destruct (launchers sched s !! k) as [b|] eqn:Hb; [|by right; right].
    destruct (launcher_opens sched s k b Hb) as (t & Ht & _).
    left. exists (OpenApp t uuid). by rewrite Ht.
  - destruct (taskbar sched s !! k) as [entry|] eqn:Hk; [|by right; right].
    apply taskbar_lookup in Hk as (a & Ha & ->).
    right. left. exists a. split; [by eapply list_elem_of_lookup_2|done].
  - destruct (taskbar sched s !! k) as [entry|] eqn:Hk; [|by right; right].
    apply taskbar_lookup in Hk as (a & Ha & ->).
    left. by exists (CloseApp (id a)).
Qed.

Lemma click_no_minimized_focus sched s w :
  wf s → w ∈ windows s → no_minimized_focus s →
  no_minimized_focus (click sched s (id w) (isMinimalize w)).
Proof.
  intros Hwf Hw Hinv.
  assert (Hne : id w ≠ "").
  { pose proof (wf_nonempty _ Hwf) as H. unfold ids_nonempty in H.
    rewrite Forall_forall in H. by apply H. }
  destruct (isMinimalize w) eqn:Hmin.
  - unfold no_minimized_focus.
    rewrite (windows_click_minimized sched s (id w) Hne).
    apply Forall_fmap, Forall_fmap, Forall_forall. intros a Ha. cbn.
    rewrite click_minimized. cbn.
    unfold upd_if. unfold has_id at 2 3.
    destruct (String.eqb (id a) (id w)) eqn:E; cbn.
    + unfold has_id. cbn. rewrite E. cbn. done.
    + unfold has_id. rewrite E. intros _.
      apply String.eqb_neq in E.
      assert (Hid : ∀ z, id (if String.eqb (id a) (id w)
                             then set_zIndex z a else a) = id a)
        by (intros z; by destruct (String.eqb (id a) (id w))).
      rewrite Hid.
      destruct sched; [by intros [=]|].
      destruct (strict_eq (id w) (focusedWindowId s) && opened (id w) s);
        [done|by intros [=]].
  - destruct (strict_eq (id w) (focusedWindowId s)) eqn:Hf.
    + rewrite click_focused by done. unfold no_minimized_focus. cbn.
      by apply Forall_true.
    + rewrite click_other by done.
      apply no_minimized_focus_step; [done|done| |done].
      cbn. apply Forall_forall. intros a Ha Hid.
      assert (a = w) as ->; [|done].
      by apply (NoDup_fmap_eq id (windows s)); [apply (wf_ids _ Hwf)| | |].
Qed.

Lemma ui_step_keeps sched s e :
  reachable sched s → no_minimized_focus s → ui_fresh s e →
  reachable sched (ui_step sched s e) ∧
  no_minimized_focus (ui_step sched s e).
Proof.
  intros Hr Hinv Hfresh. pose proof (reachable_wf _ _ Hr) as Hwf.
  destruct (ui_step_cases sched s e Hfresh)
    as [(a & Ha & Hun & ->)|[(w & Hw & ->)| ->]]; [| |done].
  - split; [|by apply no_minimized_focus_step].
    by apply (reachable_run sched s [a]).
  - split; [by apply click_reachable|by apply click_no_minimized_focus].
Qed.

Lemma ui_run_keeps sched s evs :
  reachable sched s → no_minimized_focus s → ui_valid sched s evs →
  reachable sched (ui_run sched s evs) ∧
  no_minimized_focus (ui_run sched s evs).
Proof.
  revert s. induction evs as [|e evs IH]; intros s Hr Hinv Hv; [done|].
  destruct Hv as [He Hv]. cbn.
  destruct (ui_step_keeps sched s e Hr Hinv He) as [Hr' Hinv'].
  by apply IH.
Qed.

Lemma reachable_initial sched : reachable sched initial.
Proof. by exists []. Qed.

(** X13.  Whatever is done with the launch buttons, the taskbar entries and
    their close buttons alone, starting from the empty registry: no
    minimized window is ever the focused one, and the registry stays in a
    state with distinct identifiers and distinct positive indices. *)
Theorem controls_keep_minimized_unfocused sched evs :
  ui_valid sched initial evs →
  no_minimized_focus (ui_run sched initial evs) ∧
  NoDup (id <$> windows (ui_run sched initial evs)) ∧
  NoDup (zIndexes (ui_run sched initial evs)) ∧
  Forall (λ z, 0 < z) (zIndexes (ui_run sched initial evs)).
Proof.
  intros Hv.
  destruct (ui_run_keeps sched initial evs (reachable_initial sched)) as [Hr Hinv];
    [constructor|done|].
  apply reachable_wf in Hr.
  split; [done|]. split; [apply (wf_ids _ Hr)|].
  split; [apply (wf_zs _ Hr)|by apply wf_zIndexes_positive].
Qed.

Lemma controls_keep_minimized_unfocused_witness :
  ui_valid Deferred initial launch_minimize ∧
  isMinimalize <$> windows (ui_run Deferred initial launch_minimize)
    = [false; true] ∧
  focusedWindowId (ui_run Deferred initial launch_minimize) = None ∧
  no_minimized_focus (ui_run Deferred initial launch_minimize).
Proof.
  assert (Hv : ui_valid Deferred initial launch_minimize)
    by (cbn; by repeat split).
  split; [exact Hv|]. split; [reflexivity|]. split; [reflexivity|].
  exact (proj1 (controls_keep_minimized_unfocused Deferred _ Hv)).
Defined.

Lemma fmap_upd_if_insert (f : WindowApp → WindowApp) (ws : list WindowApp) k a :
  NoDup (id <$> ws) → ws !! k = Some a →
  upd_if (has_id (id a)) f <$> ws = <[k := f a]> ws.
Proof.
  intros Hnd Hk. apply list_eq. intros j. rewrite list_lookup_fmap.
  destruct (decide (j = k)) as [->|Hne].
  - rewrite list_lookup_insert_eq by (by eapply lookup_lt_Some).
    rewrite Hk. cbn. unfold upd_if, has_id. by rewrite String.eqb_refl.
  - rewrite list_lookup_insert_ne by done.
    destruct (ws !! j) as [b|] eqn:Hj; [|done]. cbn. f_equal.
    unfold upd_if, has_id.
    destruct (String.eqb (id b) (id a)) eqn:E; [|done].
    apply String.eqb_eq in E. exfalso. apply Hne.
    apply (NoDup_lookup (id <$> ws) j k (id a)); [done| |].
    + rewrite list_lookup_fmap, Hj. cbn. by rewrite E.
    + by rewrite list_lookup_fmap, Hk.
Qed.

(** X14.  After any use of the launch buttons, taskbar entries and close
    buttons, a click on the taskbar entry of a minimized window restores
    it: the window is un-minimized, raised to the maximum plus one and
    focused, and no other window changes, under either scheduling. *)
Theorem taskbar_click_restores sched evs k a :
  ui_valid sched initial evs →
  windows (ui_run sched initial evs) !! k = Some a →
  isMinimalize a = true →
  let s := ui_run sched initial evs in
  let s' := ui_step sched s (TaskbarClick k) in
  windows s' =
    <[k := set_zIndex (max_zIndex (zIndexes s) + 1) (set_isMinimalize false a)]>
      (windows s) ∧
  focusedWindowId s' = Some (id a) ∧
  openedApps s' = openedApps s.
Proof.
  intros Hv Hk Hmin. cbv zeta.
  destruct (ui_run_keeps sched initial evs (reachable_initial sched)) as [Hr Hinv];
    [constructor|done|].
  set (s := ui_run sched initial evs) in *.
  pose proof (reachable_wf _ _ Hr) as Hwf.
  assert (Ha : a ∈ windows s) by (by eapply list_elem_of_lookup_2).
  assert (Hne : id a ≠ "").
  { pose proof (wf_nonempty _ Hwf) as H. unfold ids_nonempty in H.
    rewrite Forall_forall in H. by apply H. }
  assert (Hnf : strict_eq (id a) (focusedWindowId s) = false).
  { unfold no_minimized_focus in Hinv. rewrite Forall_forall in Hinv.
    specialize (Hinv a Ha Hmin).
    destruct (focusedWindowId s) as [j|]; [|done]. cbn.
    apply String.eqb_neq. congruence. }
  assert (Hstep : ui_step sched s (TaskbarClick k) = click sched s (id a) true).
  { cbn [ui_step]. rewrite taskbar_windows, list_lookup_fmap, Hk. cbn.
    by rewrite Hmin. }
  rewrite Hstep.
  split; [|split].
  - rewrite (windows_click_minimized sched s (id a) Hne).
    rewrite (biggest_of_max _ (wf_zIndexes_positive _ Hwf)).
    rewrite <- list_fmap_compose.
    rewrite <- (fmap_upd_if_insert
                  (λ x, set_zIndex (max_zIndex (zIndexes s) + 1)
                          (set_isMinimalize false x)) (windows s) k a
                  (wf_ids _ Hwf) Hk).
    apply list_fmap_ext. intros _ b _. cbn. unfold upd_if, has_id. cbn.
    destruct (String.eqb (id b) (id a)) eqn:E; cbn; by rewrite E.
  - rewrite click_minimized. cbn. rewrite Hnf. by destruct sched.
  - by rewrite click_minimized.
Qed.

Lemma taskbar_click_restores_witness :
  ui_valid Deferred initial launch_minimize ∧
  windows (ui_run Deferred initial launch_minimize) !! 1%nat
    = Some (set_isMinimalize true (newWindow tasks uuid2 2)) ∧
  zIndexes (ui_step Deferred (ui_run Deferred initial launch_minimize)
              (TaskbarClick 1)) = [1; 3] ∧
  focusedWindowId (ui_step Deferred (ui_run Deferred initial launch_minimize)
                     (TaskbarClick 1)) = Some uuid2.
Proof.
  assert (Hv : ui_valid Deferred initial launch_minimize)
    by (cbn; by repeat split).
  split; [exact Hv|]. split; [reflexivity|].
  destruct (taskbar_click_restores Deferred launch_minimize 1 _ Hv eq_refl eq_refl)
    as (Hw & Hf & _).
  split; [|exact Hf]. unfold zIndexes. rewrite Hw. reflexivity.
Defined.

Lemma ui_step_sched s e :
  wf s → no_minimized_focus s →
  ui_step Eager s e = ui_step Deferred s e.
Proof.
  intros Hwf Hinv. destruct e as [k uuid|k|k]; cbn [ui_step].
  - destruct k as [|[|[|k]]]; [| | |done];
      apply (step_sched_irrelevant Eager Deferred s (OpenApp _ uuid)).
  - rewrite !taskbar_windows, !list_lookup_fmap.
    destruct (windows s !! k) as [a|] eqn:Hk; [|done]. cbn.
    apply (click_sched_same Eager Deferred).
    destruct (isMinimalize a) eqn:Hmin; [right|by left].
    unfold no_minimized_focus in Hinv. rewrite Forall_forall in Hinv.
    specialize (Hinv a (list_elem_of_lookup_2 _ _ _ Hk) Hmin).
    destruct (focusedWindowId s) as [j|]; [|done]. cbn.
    destruct (String.eqb (id a) j) eqn:E; [|done].
    apply String.eqb_eq in E. congruence.
  - rewrite !taskbar_windows, !list_lookup_fmap.
    destruct (windows s !! k) as [a|]; [|done]. cbn.
    apply (step_sched_irrelevant Eager Deferred s (CloseApp (id a))).
Qed.

(** X15.  For every use of the launch buttons, taskbar entries and close
    buttons from the empty registry, the state reached is the same whether
    React runs an event's first updater during the dispatch or at the
    render. *)
Theorem controls_scheduling_irrelevant evs :
  ui_valid Eager initial evs →
  ui_run Eager initial evs = ui_run Deferred initial evs.
Proof.
  assert (Hgen : ∀ s, reachable Eager s → no_minimized_focus s →
                   ui_valid Eager s evs →
                   ui_run Eager s evs = ui_run Deferred s evs).
  { induction evs as [|e evs IH]; intros s Hr Hinv Hv; [done|].
    destruct Hv as [He Hv]. cbn.
    destruct (ui_step_keeps Eager s e Hr Hinv He) as [Hr' Hinv'].
    rewrite <- (ui_step_sched s e (reachable_wf _ _ Hr) Hinv). by apply IH. }
  intros Hv. apply Hgen; [apply reachable_initial|constructor|done].
Qed.

Lemma controls_scheduling_irrelevant_witness :
  ui_valid Eager initial (launch_minimize ++ [TaskbarClick 1]) ∧
  focusedWindowId (ui_run Deferred initial (launch_minimize ++ [TaskbarClick 1]))
    = Some uuid2 ∧
  ui_run Eager initial (launch_minimize ++ [TaskbarClick 1])
  = ui_run Deferred initial (launch_minimize ++ [TaskbarClick 1]).
Proof.
  assert (Hv : ui_valid Eager initial (launch_minimize ++ [TaskbarClick 1]))
    by (cbn; by repeat split).
  split; [exact Hv|]. split; [reflexivity|].
  exact (controls_scheduling_irrelevant _ Hv).
Defined.

(** ** The launch buttons *)

(** X16.  In a reachable state, pressing a launch button (with a fresh
    identifier) adds one taskbar entry, at the end: it carries the new
    identifier and the very icon of the button pressed, and it is the only
    entry marked focused. *)
Theorem launch_adds_entry sched s k b uuid :
  reachable sched s → launchers sched s !! k = Some b →
  uuid ≠ "" → opened uuid s = false →
  let s' := dispatchEvent (lb_onClick b uuid) s in
  ∃ entry,
    last (taskbar sched s') = Some entry ∧
    tb_key entry = uuid ∧
    tb_iconSrc entry = lb_src b ∧
    tb_isFocused <$> taskbar sched s'
      = replicate (length (windows s)) false ++ [true].
Proof.
  intros Hwf%reachable_wf Hb Hne Hfresh. cbv zeta.
  destruct (launcher_opens sched s k b Hb) as (t & Ht & Hsrc).
  rewrite Ht, Hsrc.
  pose proof (windows_openApp sched s t uuid (wf_refs _ Hwf) (conj Hne Hfresh))
    as Hw.
  set (s' := step sched s (OpenApp t uuid)) in *.
  exists (taskbarEntry sched s' (newWindow t uuid (biggest_of (zIndexes s) + 1))).
  rewrite taskbar_windows, Hw, fmap_app. cbn [fmap list_fmap].
  split; [by rewrite last_snoc|]. split; [done|]. split; [done|].
  rewrite fmap_app. f_equal.
  - assert (Hfoc : focusedWindowId s' = Some uuid) by apply focus_openApp.
    apply opened_false in Hfresh. clear Hw.
    induction Hfresh as [|a ws Ha _ IH]; [done|].
    cbn. rewrite IH. f_equal. rewrite Hfoc. exact Ha.
  - cbn. unfold s'. rewrite focus_openApp. cbn. by rewrite String.eqb_refl.
Qed.

Lemma launch_adds_entry_witness :
  reachable Deferred one_window ∧
  (∃ b, launchers Deferred one_window !! 1%nat = Some b ∧
        lb_src b = "./tasks-icon.png" ∧
        tb_iconSrc <$> taskbar Deferred
                         (dispatchEvent (lb_onClick b uuid2) one_window)
          = ["./calc-icon.png"; "./tasks-icon.png"] ∧
        tb_isFocused <$> taskbar Deferred
                           (dispatchEvent (lb_onClick b uuid2) one_window)
          = [false; true]).
Proof.
  assert (Hr : reachable Deferred one_window).
  { exists open_one. split; [|done]. cbn. by repeat split. }
  split; [exact Hr|].
  eexists. split; [reflexivity|]. split; [reflexivity|]. split; [reflexivity|].
  assert (Hne : uuid2 ≠ "") by done.
  destruct (launch_adds_entry Deferred one_window 1 _ uuid2 Hr eq_refl Hne eq_refl)
    as (entry & _ & _ & _ & Hf).
  exact Hf.
Defined.

(** ** Invariants along every run *)

(** X3.  After every run of the six actions from the empty registry, in
    any order and closing included: the open windows have pairwise distinct
    non-empty identifiers and pairwise distinct [zIndex]es, all at least 1,
    and the array holds pairwise distinct references, each to an object of
    the store. *)
Theorem registry_invariants sched tr :
  valid sched initial tr →
  NoDup (id <$> windows (run sched initial tr)) ∧
  Forall (λ w, id w ≠ "") (windows (run sched initial tr)) ∧
  NoDup (zIndexes (run sched initial tr)) ∧
  Forall (λ z, 1 ≤ z) (zIndexes (run sched initial tr)) ∧
  NoDup (openedApps (run sched initial tr)) ∧
  length (windows (run sched initial tr))
    = length (openedApps (run sched initial tr)).
Proof.
  intros Hv. pose proof (wf_run sched initial tr wf_initial Hv) as Hwf.
  split; [apply (wf_ids _ Hwf)|]. split; [apply (wf_nonempty _ Hwf)|].
  split; [apply (wf_zs _ Hwf)|]. split.
  { eapply Forall_impl; [apply (wf_zIndexes_positive _ Hwf)|]. cbn. lia. }
  split; [apply (wf_locs _ Hwf)|]. apply windows_length, (wf_refs _ Hwf).
Qed.

Lemma registry_invariants_witness :
  valid Deferred initial (open_two ++ [CloseApp uuid2; OpenApp other_app uuid2]) ∧
  zIndexes (run Deferred initial
              (open_two ++ [CloseApp uuid2; OpenApp other_app uuid2])) = [1; 2] ∧
  NoDup (zIndexes (run Deferred initial
                     (open_two ++ [CloseApp uuid2; OpenApp other_app uuid2]))).
Proof.
  assert (Hv : valid Deferred initial
                 (open_two ++ [CloseApp uuid2; OpenApp other_app uuid2]))
    by (cbn; by repeat split).
  split; [exact Hv|]. split; [reflexivity|].
  exact (proj1 (proj2 (proj2 (registry_invariants Deferred _ Hv)))).
Defined.

(** X17.  In a reachable state where no minimized window is focused, the
    click on the taskbar entry of an open window does what the three
    branches of [minimalizedAppOnClick] read, under either scheduling: a
    minimized window is un-minimized, raised to the maximum plus one and
    focused; else a focused window is minimized and the focus cleared; else
    the window is raised and focused, its minimize flag unchanged.  No other
    window changes and the array keeps its references. *)
Theorem gesture_as_written sched s w :
  reachable sched s → no_minimized_focus s → w ∈ windows s →
  let i := id w in
  let s' := click sched s i (isMinimalize w) in
  let top := max_zIndex (zIndexes s) + 1 in
  openedApps s' = openedApps s ∧
  if isMinimalize w then
    windows s' =
      (λ a, if String.eqb (id a) i
            then set_zIndex top (set_isMinimalize false a) else a)
        <$> windows s ∧
    focusedWindowId s' = Some i
  else if strict_eq i (focusedWindowId s) then
    windows s' =
      (λ a, if String.eqb (id a) i then set_isMinimalize true a else a)
        <$> windows s ∧
    focusedWindowId s' = None
  else
    windows s' =
      (λ a, if String.eqb (id a) i then set_zIndex top a else a)
        <$> windows s ∧
    focusedWindowId s' = Some i.
Proof.
  intros Hr Hinv Hw. generalize (gesture_behaviour sched s w Hr Hw).
  cbv zeta. intros [Hrefs Hcase]. split; [exact Hrefs|].
  revert Hcase. destruct (isMinimalize w) eqn:Hmin; [|done].
  intros [Hws Hf]. split; [exact Hws|]. apply Hf. right.
  unfold no_minimized_focus in Hinv. rewrite Forall_forall in Hinv.
  by apply Hinv.
Qed.

Lemma gesture_as_written_witness :
  reachable Deferred one_minimized ∧
  no_minimized_focus one_minimized ∧
  isMinimalize <$> windows one_minimized = [true; false] ∧
  focusedWindowId one_minimized = Some uuid2 ∧
  isMinimalize <$> windows (click Deferred one_minimized uuid1 true)
    = [false; false] ∧
  zIndexes (click Deferred one_minimized uuid1 true) = [3; 2] ∧
  focusedWindowId (click Deferred one_minimized uuid1 true) = Some uuid1.
Proof.
  assert (Hr : reachable Deferred one_minimized).
  { exists (open_two ++ [SetIsMinimalize uuid1 true]).
    split; [|reflexivity]. cbn. by repeat split. }
  assert (Hinv : no_minimized_focus one_minimized).
  { repeat constructor; [intros _ [=]|intros [=]]. }
  split; [exact Hr|]. split; [exact Hinv|].
  split; [reflexivity|]. split; [reflexivity|].
  assert (Hw : set_isMinimalize true (newWindow calculator uuid1 1)
               ∈ windows one_minimized)
    by apply list_elem_of_here.
  destruct (gesture_as_written Deferred one_minimized _ Hr Hinv Hw)
    as [_ [Hws Hf]].
  cbn [id isMinimalize set_isMinimalize newWindow] in Hws, Hf.
  split; [by rewrite Hws|]. split; [unfold zIndexes; by rewrite Hws|].
  exact Hf.
Defined.
